(** * ELIMINADOR-IPS-PRIVADAS: the address classifier, the public filter
    and the program around them

    A shallow embedding of ELIMINADOR-IPS-PRIVADAS.py: [es_ip_privada] and
    [filtrar_ips_publicas], together with the part of CPython's [str]
    type and [ipaddress] module (CPython 3.11, with the
    [_private_networks_exceptions] tables) that the two functions call;
    then the collectors [leer_ips_manual], [leer_ips_lista] and
    [leer_ips_csv], the exporter [guardar_resultado_csv], the menu and
    [main] with the block [__main__].

    Conventions.
    - A Python [str] is the list of its code points.
    - A Python [int] is a [Z].
    - A computation that may raise is a [result]; a computation that also
      prints is an [io]: it returns its result together with the lines it
      wrote to standard output (writing itself is assumed not to fail).
    - A Python [set] of strings is a [gset str]; the loop [for ip in ips]
      visits it in an order the language leaves open, so the loop is
      embedded over the sequence in which the set is visited.
    - The functions that read the keyboard, the clock or the disk are
      programs over a [world]: the events still to come from the
      keyboard (lines typed and Ctrl-C; the end of the list is the end of
      the input), what has been shown, the disk as a map from paths to
      what [open] finds there, and the answers of the clock. A [while
      True] loop is a fixpoint on a number of steps that its caller sets
      above the number of events left; running out of steps is an error
      of its own, [OutOfFuel], that no handler catches and that is shown
      never to occur.
    - [str.lower] and the text [str(e)] of an exception are parameters
      of the program. *)

From Stdlib Require Import ZArith NArith Lia Ascii String DecimalString.
From stdpp Require Import base tactics option list numbers sorting gmap sets fin_sets.

Local Open Scope Z_scope.

(** ** Python strings *)

Definition char := N.
Definition str := list N.

Definition ord (a : ascii) : char := N_of_ascii a.

(** An ASCII literal as a [str]. *)
Definition py (s : string) : str := ord <$> list_ascii_of_string s.

Definition len {A} (l : list A) : Z := Z.of_nat (length l).

(** [not s] on a string: true on the empty string. *)
Definition not_ {A} (l : list A) : bool :=
  match l with [] => true | _ => false end.

(** [str.isspace] on one code point (Py_UNICODE_ISSPACE). *)
Definition isspace (c : char) : bool :=
  ((9 <=? c) && (c <=? 13) || (28 <=? c) && (c <=? 32)
   || (c =? 133) || (c =? 160) || (c =? 5760)
   || (8192 <=? c) && (c <=? 8202)
   || (c =? 8232) || (c =? 8233) || (c =? 8239) || (c =? 8287)
   || (c =? 12288))%N.

Fixpoint lstrip (s : str) : str :=
  match s with
  | c :: s' => if isspace c then lstrip s' else s
  | [] => []
  end.

Definition rstrip (s : str) : str := reverse (lstrip (reverse s)).

(** [s.strip()] *)
Definition strip (s : str) : str := rstrip (lstrip s).

(** [sep in s] for a one-character [sep]. *)
Definition contains (sep : char) (s : str) : bool := existsb (N.eqb sep) s.

(** [s.split(sep)] for a one-character [sep]. *)
Fixpoint split (sep : char) (s : str) : list str :=
  match s with
  | [] => [[]]
  | c :: s' =>
      if (c =? sep)%N then [] :: split sep s'
      else match split sep s' with
           | w :: ws => (c :: w) :: ws
           | [] => [[c]]
           end
  end.

(** [s.partition(sep)]: the part before the first [sep], whether [sep] was
    found, and the part after it. *)
Fixpoint partition (sep : char) (s : str) : str * bool * str :=
  match s with
  | [] => ([], false, [])
  | c :: s' =>
      if (c =? sep)%N then ([], true, s')
      else let '(a, found, b) := partition sep s' in (c :: a, found, b)
  end.

Definition is_decimal_digit (c : char) : bool := ((48 <=? c) && (c <=? 57))%N.

(** [s.isascii() and s.isdigit()]: on ASCII the digits are 0-9, and
    [isdigit] is false on the empty string. *)
Definition isascii_and_isdigit (s : str) : bool :=
  negb (not_ s) && forallb is_decimal_digit s.

(** Value of a hexadecimal digit, [None] for any other code point
    (membership in [_HEX_DIGITS]). *)
Definition hex_digit_value (c : char) : option Z :=
  (if (48 <=? c) && (c <=? 57) then Some (Z.of_N (c - 48))
   else if (65 <=? c) && (c <=? 70) then Some (Z.of_N (c - 55))
   else if (97 <=? c) && (c <=? 102) then Some (Z.of_N (c - 87))
   else None)%N.

Definition is_hex_digit (c : char) : bool :=
  match hex_digit_value c with Some _ => true | None => false end.

(** The digits of [s] read in [base], most significant first. *)
Definition digits_value (base : Z) (s : str) : Z :=
  fold_left (fun acc c => acc * base + default 0 (hex_digit_value c)) s 0.

(** ['%x' % n] for [0 <= n]. *)
Definition hex_char (d : Z) : char :=
  if d <? 10 then Z.to_N (d + 48) else Z.to_N (d + 87).

Fixpoint hex_digits (fuel : nat) (n : Z) (acc : str) : str :=
  match fuel with
  | O => acc
  | S fuel' =>
      let acc' := hex_char (Z.land n 15) :: acc in
      if Z.shiftr n 4 =? 0 then acc' else hex_digits fuel' (Z.shiftr n 4) acc'
  end.

Definition format_x (n : Z) : str := hex_digits (S (Z.to_nat (Z.log2 n))) n [].

(** Comparison of strings, [a < b]: code point by code point, a proper
    prefix first. *)
Fixpoint str_ltb (a b : str) : bool :=
  match a, b with
  | _, [] => false
  | [], _ :: _ => true
  | x :: a', y :: b' =>
      if (x <? y)%N then true
      else if (y <? x)%N then false
      else str_ltb a' b'
  end.

Definition str_lt (a b : str) : Prop := str_ltb a b = true.

(** [a <= b], that is, not [b < a]. *)
Definition str_le (a b : str) : Prop := str_ltb b a = false.

#[global] Instance str_le_dec (a b : str) : Decision (str_le a b).
Proof. unfold str_le. apply _. Defined.

(** [sorted(l)] on a list of strings: a stable merge sort that only asks
    whether an element is smaller than another one. *)
Definition sorted (l : list str) : list str := merge_sort str_le l.

(** ** Exceptions and output *)

Inductive exn :=
  | ValueError
  | AddressValueError
  | NetmaskValueError
  | IndexError
  | AttributeError.

(** [isinstance(e, ValueError)]: [AddressValueError] and
    [NetmaskValueError] are subclasses of [ValueError]. *)
Definition is_ValueError (e : exn) : bool :=
  match e with
  | ValueError | AddressValueError | NetmaskValueError => true
  | IndexError | AttributeError => false
  end.

(** [isinstance(e, AddressValueError)] *)
Definition is_AddressValueError (e : exn) : bool :=
  match e with
  | AddressValueError => true
  | _ => false
  end.

(** [isinstance(e, (AddressValueError, NetmaskValueError))] *)
Definition is_Address_or_Netmask_error (e : exn) : bool :=
  match e with
  | AddressValueError | NetmaskValueError => true
  | _ => false
  end.

Inductive result (A : Type) :=
  | Ret (a : A)
  | Raise (e : exn).
Arguments Ret {A} a.
Arguments Raise {A} e.

#[global] Instance result_ret : MRet result := fun A a => Ret a.
#[global] Instance result_bind : MBind result := fun A B f m =>
  match m with
  | Ret a => f a
  | Raise e => Raise e
  end.

(** [try: body / except <cls>: handler e] *)
Definition try_except {A} (body : result A) (cls : exn -> bool)
    (handler : exn -> result A) : result A :=
  match body with
  | Ret a => Ret a
  | Raise e => if cls e then handler e else Raise e
  end.

(** [a or b] and [a and b] on booleans, written [a orelse b] and
    [a andalso b]: [b] is evaluated only when [a] does not decide. *)
Definition or_ (a b : result bool) : result bool :=
  match a with
  | Ret x => if x then Ret true else b
  | Raise e => Raise e
  end.

Definition and_ (a b : result bool) : result bool :=
  match a with
  | Ret x => if x then b else Ret false
  | Raise e => Raise e
  end.

Notation "a 'orelse' b" := (or_ a b) (at level 50, left associativity).
Notation "a 'andalso' b" := (and_ a b) (at level 40, left associativity).

(** [l[i]], with Python's negative indices. *)
Definition getitem {A} (l : list A) (i : Z) : result A :=
  let j := if i <? 0 then i + len l else i in
  if (j <? 0) || (len l <=? j) then Raise IndexError
  else match l !! Z.to_nat j with
       | Some x => Ret x
       | None => Raise IndexError
       end.

(** [range(a, b)] *)
Definition range (a b : Z) : list Z := seqZ a (b - a).

(** A [for] loop whose body updates [acc] and may raise. *)
Fixpoint for_ {A B} (l : list A) (acc : B) (body : B -> A -> result B) : result B :=
  match l with
  | [] => Ret acc
  | x :: l' => acc' ← body acc x; for_ l' acc' body
  end.

(** [map(f, l)] consumed to the end: stops at the first element on which
    [f] raises. *)
Fixpoint map_ {A B} (f : A -> result B) (l : list A) : result (list B) :=
  match l with
  | [] => Ret []
  | x :: l' => y ← f x; ys ← map_ f l'; Ret (y :: ys)
  end.

(** [int(s, base)] on a string the caller has checked to hold digits of
    [base] only (no sign, blank, underscore or prefix): the value of the
    digits, and [ValueError] on the empty string. *)
Definition int_ (s : str) (base : Z) : result Z :=
  if not_ s then Raise ValueError
  else if forallb (fun c => match hex_digit_value c with
                            | Some d => d <? base
                            | None => false
                            end) s
       then Ret (digits_value base s)
       else Raise ValueError.

(** [int.from_bytes(bs, 'big')] *)
Definition int_from_bytes_big (bs : list Z) : Z :=
  fold_left (fun acc b => Z.lor (Z.shiftl acc 8) b) bs 0.

(** ** The [ipaddress] module *)

(** An [IPv4Address] or [IPv6Address] object: its [_ip], and for IPv6 its
    [_scope_id]. *)
Inductive ip_object :=
  | IPv4 (_ip : Z)
  | IPv6 (_ip : Z) (_scope_id : option str).

Definition _ip (a : ip_object) : Z :=
  match a with IPv4 ip => ip | IPv6 ip _ => ip end.

Definition _version (a : ip_object) : Z :=
  match a with IPv4 _ => 4 | IPv6 _ _ => 6 end.

(** [isinstance(ip, ipaddress.IPv6Address)] *)
Definition isinstance_IPv6Address (a : ip_object) : bool :=
  match a with IPv4 _ => false | IPv6 _ _ => true end.

(** An [IPv4Network] or [IPv6Network] object. *)
Record network := Network {
  net_version : Z;
  network_address : Z;
  netmask : Z;
  prefixlen : Z
}.

Module BaseV4.

Definition _ALL_ONES : Z := 2 ^ 32 - 1.
Definition _max_prefixlen : Z := 32.

Definition _parse_octet (octet_str : str) : result Z :=
  if not_ octet_str then Raise ValueError
  else if negb (isascii_and_isdigit octet_str) then Raise ValueError
  else if 3 <? len octet_str then Raise ValueError
  else
    leading_zero ←
      Ret (negb (bool_decide (octet_str = py "0")))
      andalso (first ← getitem octet_str 0; Ret (first =? ord "0")%N);
    if leading_zero : bool then Raise ValueError
    else
      octet_int ← int_ octet_str 10;
      if 255 <? octet_int then Raise ValueError else Ret octet_int.

Definition _ip_int_from_string (ip_str : str) : result Z :=
  if not_ ip_str then Raise AddressValueError
  else
    let octets := split (ord ".") ip_str in
    if negb (len octets =? 4) then Raise AddressValueError
    else
      try_except
        (bs ← map_ _parse_octet octets; Ret (int_from_bytes_big bs))
        is_ValueError (fun _ => Raise AddressValueError).

End BaseV4.

(** [IPv4Address(address)] for a string argument. *)
Definition IPv4Address (addr_str : str) : result ip_object :=
  if contains (ord "/") addr_str then Raise AddressValueError
  else ip ← BaseV4._ip_int_from_string addr_str; Ret (IPv4 ip).

Module BaseV6.

Definition _ALL_ONES : Z := 2 ^ 128 - 1.
Definition _HEXTET_COUNT : Z := 8.
Definition _max_prefixlen : Z := 128.

Definition _parse_hextet (hextet_str : str) : result Z :=
  if negb (forallb is_hex_digit hextet_str) then Raise ValueError
  else if 4 <? len hextet_str then Raise ValueError
  else int_ hextet_str 16.

(** The body shared by the two loops that read hextets:
    [ip_int <<= 16; ip_int |= cls._parse_hextet(parts[i])]. *)
Definition read_hextet (parts : list str) (ip_int : Z) (i : Z) : result Z :=
  let ip_int := Z.shiftl ip_int 16 in
  part ← getitem parts i;
  h ← _parse_hextet part;
  Ret (Z.lor ip_int h).

Definition _ip_int_from_string (ip_str : str) : result Z :=
  if not_ ip_str then Raise AddressValueError
  else
    let parts := split (ord ":") ip_str in
    let _min_parts := 3 in
    if len parts <? _min_parts then Raise AddressValueError
    else
      last_part ← getitem parts (-1);
      parts ←
        (if contains (ord ".") last_part then
           ipv4_int ←
             try_except (a ← IPv4Address last_part; Ret (_ip a))
               is_AddressValueError
               (fun _ => Raise AddressValueError);
           Ret (removelast parts
                  ++ [format_x (Z.land (Z.shiftr ipv4_int 16) 65535)]
                  ++ [format_x (Z.land ipv4_int 65535)])
         else Ret parts);
      let _max_parts := _HEXTET_COUNT + 1 in
      if _max_parts <? len parts then Raise AddressValueError
      else
        skip_index ←
          for_ (range 1 (len parts - 1)) (None : option Z)
            (fun skip_index i =>
               part ← getitem parts i;
               if not_ part then
                 match skip_index with
                 | Some _ => Raise AddressValueError
                 | None => Ret (Some i)
                 end
               else Ret skip_index);
        '(parts_hi, parts_lo, parts_skipped) ←
          match skip_index return result (Z * Z * Z) with
          | Some skip_index =>
              let parts_hi := skip_index in
              let parts_lo := len parts - skip_index - 1 in
              first ← getitem parts 0;
              parts_hi ←
                (if not_ first then
                   let parts_hi := parts_hi - 1 in
                   if negb (parts_hi =? 0) then Raise AddressValueError
                   else Ret parts_hi
                 else Ret parts_hi);
              last_part ← getitem parts (-1);
              parts_lo ←
                (if not_ last_part then
                   let parts_lo := parts_lo - 1 in
                   if negb (parts_lo =? 0) then Raise AddressValueError
                   else Ret parts_lo
                 else Ret parts_lo);
              let parts_skipped := _HEXTET_COUNT - (parts_hi + parts_lo) in
              if parts_skipped <? 1 then Raise AddressValueError
              else Ret (parts_hi, parts_lo, parts_skipped)
          | None =>
              if negb (len parts =? _HEXTET_COUNT) then Raise AddressValueError
              else
                first ← getitem parts 0;
                if not_ first then Raise AddressValueError
                else
                  last_part ← getitem parts (-1);
                  if not_ last_part then Raise AddressValueError
                  else Ret (len parts, 0, 0)
          end;
        try_except
          (ip_int ← for_ (range 0 parts_hi) 0 (read_hextet parts);
           let ip_int := Z.shiftl ip_int (16 * parts_skipped) in
           for_ (range (- parts_lo) 0) ip_int (read_hextet parts))
          is_ValueError (fun _ => Raise AddressValueError).

Definition _split_scope_id (ip_str : str) : result (str * option str) :=
  let '(addr, sep, scope_id) := partition (ord "%") ip_str in
  if negb sep then Ret (addr, None)
  else if not_ scope_id || contains (ord "%") scope_id
       then Raise AddressValueError
       else Ret (addr, Some scope_id).

End BaseV6.

(** [IPv6Address(address)] for a string argument. *)
Definition IPv6Address (addr_str : str) : result ip_object :=
  if contains (ord "/") addr_str then Raise AddressValueError
  else
    '(addr_str, scope_id) ← BaseV6._split_scope_id addr_str;
    ip ← BaseV6._ip_int_from_string addr_str;
    Ret (IPv6 ip scope_id).

(** [ipaddress.ip_address(address)] for a string argument. *)
Definition ip_address (address : str) : result ip_object :=
  try_except (IPv4Address address) is_Address_or_Netmask_error (fun _ =>
  try_except (IPv6Address address) is_Address_or_Netmask_error (fun _ =>
  Raise ValueError)).

(** [cls._ip_int_from_prefix(prefixlen)] *)
Definition _ip_int_from_prefix (_ALL_ONES prefixlen : Z) : Z :=
  Z.lxor _ALL_ONES (Z.shiftr _ALL_ONES prefixlen).

(** [cls._prefix_from_prefix_string(prefixlen_str)] *)
Definition _prefix_from_prefix_string (_max_prefixlen : Z) (prefixlen_str : str)
    : result Z :=
  if negb (isascii_and_isdigit prefixlen_str) then Raise NetmaskValueError
  else
    prefixlen ← try_except (int_ prefixlen_str 10) is_ValueError
                  (fun _ => Raise NetmaskValueError);
    if negb ((0 <=? prefixlen) && (prefixlen <=? _max_prefixlen))
    then Raise NetmaskValueError
    else Ret prefixlen.

(** The constructor shared by [IPv4Network(address)] and
    [IPv6Network(address)], for a string argument, [strict=True] and a
    mask given as a prefix length (the only form the tables below use). *)
Definition make_network (version _ALL_ONES _max_prefixlen : Z)
    (Address : str -> result ip_object) (address : str) : result network :=
  let addr := split (ord "/") address in
  if 2 <? len addr then Raise AddressValueError
  else
    a ← getitem addr 0;
    network_address ← Address a;
    prefixlen ←
      (if 1 <? len addr then
         mask ← getitem addr 1;
         _prefix_from_prefix_string _max_prefixlen mask
       else Ret _max_prefixlen);
    let netmask := _ip_int_from_prefix _ALL_ONES prefixlen in
    let packed := _ip network_address in
    if negb (Z.land packed netmask =? packed) then Raise ValueError
    else Ret (Network version packed netmask prefixlen).

Definition IPv4Network : str -> result network :=
  make_network 4 BaseV4._ALL_ONES BaseV4._max_prefixlen IPv4Address.

Definition IPv6Network : str -> result network :=
  make_network 6 BaseV6._ALL_ONES BaseV6._max_prefixlen IPv6Address.

(** The tables are built when the module is loaded; a literal that did
    not construct would be [no_network], which contains no address. *)
Definition no_network : network := Network 0 0 0 0.

Definition built (r : result network) : network :=
  match r with Ret n => n | Raise _ => no_network end.

Module IPv4Constants.

Definition _linklocal_network : network :=
  Eval vm_compute in built (IPv4Network (py "169.254.0.0/16")).
Definition _loopback_network : network :=
  Eval vm_compute in built (IPv4Network (py "127.0.0.0/8")).
Definition _multicast_network : network :=
  Eval vm_compute in built (IPv4Network (py "224.0.0.0/4")).
Definition _public_network : network :=
  Eval vm_compute in built (IPv4Network (py "100.64.0.0/10")).

Definition _private_networks : list network :=
  Eval vm_compute in
    (fun s => built (IPv4Network (py s))) <$>
    [ "0.0.0.0/8"; "10.0.0.0/8"; "127.0.0.0/8"; "169.254.0.0/16";
      "172.16.0.0/12"; "192.0.0.0/24"; "192.0.0.170/31"; "192.0.2.0/24";
      "192.168.0.0/16"; "198.18.0.0/15"; "198.51.100.0/24";
      "203.0.113.0/24"; "240.0.0.0/4"; "255.255.255.255/32" ]%string.

Definition _private_networks_exceptions : list network :=
  Eval vm_compute in
    (fun s => built (IPv4Network (py s))) <$>
    [ "192.0.0.9/32"; "192.0.0.10/32" ]%string.

Definition _reserved_network : network :=
  Eval vm_compute in built (IPv4Network (py "240.0.0.0/4")).

End IPv4Constants.

Module IPv6Constants.

Definition _linklocal_network : network :=
  Eval vm_compute in built (IPv6Network (py "fe80::/10")).
Definition _multicast_network : network :=
  Eval vm_compute in built (IPv6Network (py "ff00::/8")).

Definition _private_networks : list network :=
  Eval vm_compute in
    (fun s => built (IPv6Network (py s))) <$>
    [ "::1/128"; "::/128"; "::ffff:0:0/96"; "64:ff9b:1::/48"; "100::/64";
      "2001::/23"; "2001:db8::/32"; "2002::/16"; "fc00::/7";
      "fe80::/10" ]%string.

Definition _private_networks_exceptions : list network :=
  Eval vm_compute in
    (fun s => built (IPv6Network (py s))) <$>
    [ "2001:1::1/128"; "2001:1::2/128"; "2001:3::/32"; "2001:4:112::/48";
      "2001:20::/28"; "2001:30::/28" ]%string.

Definition _reserved_networks : list network :=
  Eval vm_compute in
    (fun s => built (IPv6Network (py s))) <$>
    [ "::/8"; "100::/8"; "200::/7"; "400::/6"; "800::/5"; "1000::/4";
      "4000::/3"; "6000::/3"; "8000::/3"; "A000::/3"; "C000::/3";
      "E000::/4"; "F000::/5"; "F800::/6"; "FE00::/9" ]%string.

Definition _sitelocal_network : network :=
  Eval vm_compute in built (IPv6Network (py "fec0::/10")).

End IPv6Constants.

(** [self in net] ([_BaseNetwork.__contains__]) for an address [self]. *)
Definition in_network (self : ip_object) (net : network) : bool :=
  if negb (net_version net =? _version self) then false
  else Z.land (_ip self) (netmask net) =? network_address net.

Module V4.

Definition is_reserved (self : ip_object) : bool :=
  in_network self IPv4Constants._reserved_network.

Definition is_private (self : ip_object) : bool :=
  existsb (fun net => in_network self net) IPv4Constants._private_networks
  && forallb (fun net => negb (in_network self net))
       IPv4Constants._private_networks_exceptions.

Definition is_multicast (self : ip_object) : bool :=
  in_network self IPv4Constants._multicast_network.

Definition is_loopback (self : ip_object) : bool :=
  in_network self IPv4Constants._loopback_network.

Definition is_link_local (self : ip_object) : bool :=
  in_network self IPv4Constants._linklocal_network.

End V4.

Module V6.

(** [None] stands for Python's [None]. *)
Definition ipv4_mapped (self : ip_object) : option ip_object :=
  if negb (Z.shiftr (_ip self) 32 =? 0xFFFF) then None
  else Some (IPv4 (Z.land (_ip self) 0xFFFFFFFF)).

Definition is_multicast (self : ip_object) : bool :=
  in_network self IPv6Constants._multicast_network.

Definition is_reserved (self : ip_object) : bool :=
  existsb (fun x => in_network self x) IPv6Constants._reserved_networks.

Definition is_link_local (self : ip_object) : bool :=
  in_network self IPv6Constants._linklocal_network.

Definition is_site_local (self : ip_object) : bool :=
  in_network self IPv6Constants._sitelocal_network.

Definition is_private (self : ip_object) : bool :=
  match ipv4_mapped self with
  | Some ipv4_mapped => V4.is_private ipv4_mapped
  | None =>
      existsb (fun net => in_network self net) IPv6Constants._private_networks
      && forallb (fun net => negb (in_network self net))
           IPv6Constants._private_networks_exceptions
  end.

Definition is_loopback (self : ip_object) : bool := _ip self =? 1.

End V6.

(** The properties as looked up on an object of either class. *)
Definition is_private (ip : ip_object) : bool :=
  match ip with IPv4 _ => V4.is_private ip | IPv6 _ _ => V6.is_private ip end.

Definition is_reserved (ip : ip_object) : bool :=
  match ip with IPv4 _ => V4.is_reserved ip | IPv6 _ _ => V6.is_reserved ip end.

Definition is_loopback (ip : ip_object) : bool :=
  match ip with IPv4 _ => V4.is_loopback ip | IPv6 _ _ => V6.is_loopback ip end.

Definition is_link_local (ip : ip_object) : bool :=
  match ip with IPv4 _ => V4.is_link_local ip | IPv6 _ _ => V6.is_link_local ip end.

Definition is_multicast (ip : ip_object) : bool :=
  match ip with IPv4 _ => V4.is_multicast ip | IPv6 _ _ => V6.is_multicast ip end.

(** [IPv4Address] has no attribute [is_site_local]. *)
Definition is_site_local (ip : ip_object) : result bool :=
  match ip with
  | IPv4 _ => Raise AttributeError
  | IPv6 _ _ => Ret (V6.is_site_local ip)
  end.

(** ** Computations that print *)

Record io (A : Type) := IO {
  outcome : result A;
  stdout : list str
}.
Arguments IO {A} outcome stdout.
Arguments outcome {A} i.
Arguments stdout {A} i.

#[global] Instance io_ret : MRet io := fun A a => IO (Ret a) [].
#[global] Instance io_bind : MBind io := fun A B f m =>
  match outcome m with
  | Ret a => IO (outcome (f a)) (stdout m ++ stdout (f a))
  | Raise e => IO (Raise e) (stdout m)
  end.

Definition lift {A} (r : result A) : io A := IO r [].

(** [print(line)] *)
Definition print (line : str) : io unit := IO (Ret tt) [line].

(** [try: body / except <cls>: handler e], for a body that may print. *)
Definition io_try_except {A} (body : io A) (cls : exn -> bool)
    (handler : exn -> io A) : io A :=
  match outcome body with
  | Ret _ => body
  | Raise e =>
      if cls e
      then IO (outcome (handler e)) (stdout body ++ stdout (handler e))
      else body
  end.

(** ** ELIMINADOR-IPS-PRIVADAS.py *)

(** [f"  ⚠ IP inválida: {ip_str}"] *)
Definition msg_invalida (ip_str : str) : str :=
  py "  " ++ [0x26A0%N] ++ py " IP inv" ++ [0xE1%N] ++ py "lida: " ++ ip_str.

(** ["\n🔍 Analizando IPs..."] *)
Definition msg_analizando : str :=
  [10%N; 0x1F50D%N] ++ py " Analizando IPs...".

(** [f"  ✓ {ip} - Pública"] *)
Definition msg_publica (ip : str) : str :=
  py "  " ++ [0x2713%N] ++ py " " ++ ip ++ py " - P" ++ [0xFA%N] ++ py "blica".

(** [f"  ✗ {ip} - Privada/Reservada"] *)
Definition msg_privada (ip : str) : str :=
  py "  " ++ [0x2717%N] ++ py " " ++ ip ++ py " - Privada/Reservada".

Definition es_ip_privada (ip_str : str) : io bool :=
  io_try_except
    (ip ← lift (ip_address (strip ip_str));
     lift (Ret (is_private ip) orelse
           Ret (is_reserved ip) orelse
           Ret (is_loopback ip) orelse
           Ret (is_link_local ip) orelse
           Ret (is_multicast ip) orelse
           (Ret (isinstance_IPv6Address ip) andalso is_site_local ip)))
    is_ValueError
    (fun _ =>
       _ ← print (msg_invalida ip_str);
       mret true).

(** The loop [for ip in ips] of [filtrar_ips_publicas]; [ips] is the
    sequence in which the set is visited. *)
Fixpoint filtrar_loop (ips : list str) (ips_publicas : list str) : io (list str) :=
  match ips with
  | [] => mret ips_publicas
  | ip :: ips' =>
      privada ← es_ip_privada ip;
      if negb privada then
        let ips_publicas := ips_publicas ++ [ip] in
        _ ← print (msg_publica ip);
        filtrar_loop ips' ips_publicas
      else
        _ ← print (msg_privada ip);
        filtrar_loop ips' ips_publicas
  end.

Definition filtrar_ips_publicas (ips : list str) : io (list str) :=
  let ips_publicas := [] in
  _ ← print msg_analizando;
  ips_publicas ← filtrar_loop ips ips_publicas;
  mret (sorted ips_publicas).

(** ** The two operations of the specification *)

(** [is_public(raw)] is [not es_ip_privada(raw)]. *)
Definition is_public (raw : str) : result bool :=
  privada ← outcome (es_ip_privada raw); Ret (negb privada).

(** [filter_public(addresses)] is [filtrar_ips_publicas(addresses)], the
    set being visited in the order of [elements]. *)
Definition filter_public (addresses : gset str) : result (list str) :=
  outcome (filtrar_ips_publicas (elements addresses)).

(** ** Predicates used in the statements *)

(** [r] raises nothing but exceptions of the class [cls]. *)
Definition raises_only {A} (cls : exn -> bool) (r : result A) : Prop :=
  forall e, r = Raise e -> cls e = true.

(** [s] does not start with white space. *)
Definition no_leading_space (s : str) : Prop :=
  match s with
  | [] => True
  | c :: _ => isspace c = false
  end.

(** The ranges named by the specification (4.1, step 4): private,
    reserved, loopback, link-local, multicast, and, for an IPv6 address
    only, site-local. *)
Definition in_non_public_range (ip : ip_object) : Prop :=
  is_private ip = true ∨ is_reserved ip = true ∨ is_loopback ip = true
  ∨ is_link_local ip = true ∨ is_multicast ip = true
  ∨ (isinstance_IPv6Address ip = true ∧ V6.is_site_local ip = true).

(** The address [a.b.c.d] as an integer. *)
Definition dotted (a b c d : Z) : Z := ((a * 256 + b) * 256 + c) * 256 + d.

(** The shared address space 100.64.0.0/10 of RFC 6598. *)
Definition shared_address_space : network :=
  Eval vm_compute in built (IPv4Network (py "100.64.0.0/10")).

(** [net] fixes the four leading bits of an IPv4 address to something
    other than 0110, the leading bits of 100.64.0.0/10. *)
Definition apart_from_shared (net : network) : bool :=
  (Z.shiftr (netmask net) 28 =? 15)
  && negb (Z.shiftr (network_address net) 28 =? 6).

#[global] Instance exn_eq_dec : EqDecision exn.
Proof. solve_decision. Defined.

#[global] Instance result_eq_dec {A} `{EqDecision A} : EqDecision (result A).
Proof. solve_decision. Defined.

(** ** The public addresses as blocks *)

(** The IPv4 addresses the classifier rejects, as blocks of addresses. *)
Definition ipv4_non_public (n : Z) : Prop :=
  dotted 0 0 0 0 ≤ n ≤ dotted 0 255 255 255
  ∨ dotted 10 0 0 0 ≤ n ≤ dotted 10 255 255 255
  ∨ dotted 127 0 0 0 ≤ n ≤ dotted 127 255 255 255
  ∨ dotted 169 254 0 0 ≤ n ≤ dotted 169 254 255 255
  ∨ dotted 172 16 0 0 ≤ n ≤ dotted 172 31 255 255
  ∨ (dotted 192 0 0 0 ≤ n ≤ dotted 192 0 0 255
     ∧ n ≠ dotted 192 0 0 9 ∧ n ≠ dotted 192 0 0 10)
  ∨ dotted 192 0 2 0 ≤ n ≤ dotted 192 0 2 255
  ∨ dotted 192 168 0 0 ≤ n ≤ dotted 192 168 255 255
  ∨ dotted 198 18 0 0 ≤ n ≤ dotted 198 19 255 255
  ∨ dotted 198 51 100 0 ≤ n ≤ dotted 198 51 100 255
  ∨ dotted 203 0 113 0 ≤ n ≤ dotted 203 0 113 255
  ∨ dotted 224 0 0 0 ≤ n ≤ dotted 255 255 255 255.

(** The address [a:b:c:d:e:f:g:h] as an integer. *)
Definition hextets (a b c d e f g h : Z) : Z :=
  ((((((a * 65536 + b) * 65536 + c) * 65536 + d) * 65536 + e) * 65536 + f)
     * 65536 + g) * 65536 + h.

(** The IPv6 addresses the classifier accepts: those of 2000::/3 outside
    2001:db8::/32 and 2002::/16, and outside 2001::/23 but for
    2001:1::1, 2001:1::2, 2001:3::/32, 2001:4:112::/48 and 2001:20::/27. *)
Definition ipv6_public (n : Z) : Prop :=
  hextets 0x2000 0 0 0 0 0 0 0 ≤ n
    ≤ hextets 0x3fff 0xffff 0xffff 0xffff 0xffff 0xffff 0xffff 0xffff
  ∧ ¬ (hextets 0x2001 0xdb8 0 0 0 0 0 0 ≤ n
         ≤ hextets 0x2001 0xdb8 0xffff 0xffff 0xffff 0xffff 0xffff 0xffff)
  ∧ ¬ (hextets 0x2002 0 0 0 0 0 0 0 ≤ n
         ≤ hextets 0x2002 0xffff 0xffff 0xffff 0xffff 0xffff 0xffff 0xffff)
  ∧ (hextets 0x2001 0 0 0 0 0 0 0 ≤ n
       ≤ hextets 0x2001 0x1ff 0xffff 0xffff 0xffff 0xffff 0xffff 0xffff →
     n = hextets 0x2001 1 0 0 0 0 0 1
     ∨ n = hextets 0x2001 1 0 0 0 0 0 2
     ∨ hextets 0x2001 3 0 0 0 0 0 0 ≤ n
         ≤ hextets 0x2001 3 0xffff 0xffff 0xffff 0xffff 0xffff 0xffff
     ∨ hextets 0x2001 4 0x112 0 0 0 0 0 ≤ n
         ≤ hextets 0x2001 4 0x112 0xffff 0xffff 0xffff 0xffff 0xffff
     ∨ hextets 0x2001 0x20 0 0 0 0 0 0 ≤ n
         ≤ hextets 0x2001 0x3f 0xffff 0xffff 0xffff 0xffff 0xffff 0xffff).

(** ** What the filter prints *)

(** What [filtrar_ips_publicas] prints for one address: the warning of
    the classifier, if any, then the verdict. *)
Definition lines_for (ip : str) : list str :=
  stdout (es_ip_privada ip)
  ++ [match is_public ip with
      | Ret true => msg_publica ip
      | _ => msg_privada ip
      end].

(** A line that starts with two blanks and a check mark. *)
Definition is_accept_line (line : str) : bool :=
  bool_decide (take 3 line = py "  " ++ [0x2713%N]).

(** ** Text of the program *)

(** The code points of a literal written in UTF-8. *)
Fixpoint utf8_decode (bytes : list N) : str :=
  match bytes with
  | [] => []
  | b0 :: rest =>
      if (b0 <? 0x80)%N then b0 :: utf8_decode rest
      else if (b0 <? 0xE0)%N then
        match rest with
        | b1 :: rest => ((b0 - 0xC0) * 64 + (b1 - 0x80))%N :: utf8_decode rest
        | _ => []
        end
      else if (b0 <? 0xF0)%N then
        match rest with
        | b1 :: b2 :: rest =>
            (((b0 - 0xE0) * 64 + (b1 - 0x80)) * 64 + (b2 - 0x80))%N
            :: utf8_decode rest
        | _ => []
        end
      else
        match rest with
        | b1 :: b2 :: b3 :: rest =>
            ((((b0 - 0xF0) * 64 + (b1 - 0x80)) * 64 + (b2 - 0x80)) * 64
             + (b3 - 0x80))%N
            :: utf8_decode rest
        | _ => []
        end
  end.

Definition u (s : string) : str := utf8_decode (py s).

(** ["\n"] *)
Definition nl : str := [10%N].

(** [s * n] *)
Definition times (s : str) (n : nat) : str := concat (replicate n s).

(** [str(n)] for an integer. *)
Definition str_of_int (n : Z) : str := py (NilZero.string_of_int (Z.to_int n)).

(** ** The console, the clock and the disk *)

(** What the operator does at a prompt: types a line, or presses
    Ctrl-C. The end of the list is the end of the input. *)
Inductive event :=
  | Line (text : str)
  | CtrlC.

Inductive error :=
  | KeyboardInterrupt
  | EOFError
  | FileNotFoundError (path : str)
  | IsADirectoryError (path : str)
  | NotADirectoryError (path : str)
  | PermissionError (path : str)
  (** [UnicodeDecodeError] or [csv.Error], raised while rows are read *)
  | ReadError (info : str)
  (** an exception of the classifier *)
  | LibraryError (e : exn)
  (** not an exception: a loop of the model ran out of steps *)
  | OutOfFuel.

(** [isinstance(e, Exception)] *)
Definition is_Exception (e : error) : bool :=
  match e with
  | KeyboardInterrupt | OutOfFuel => false
  | _ => true
  end.

(** [isinstance(e, KeyboardInterrupt)] *)
Definition is_KeyboardInterrupt (e : error) : bool :=
  match e with
  | KeyboardInterrupt => true
  | _ => false
  end.

Inductive res (A : Type) :=
  | Done (a : A)
  | Failed (e : error).
Arguments Done {A} a.
Arguments Failed {A} e.

(** What a path of the disk holds: a directory; a file, seen as the rows
    [csv.reader] yields from it and the error it raises after them, if
    any; or something [open] refuses. *)
Inductive node :=
  | Dir
  | File (rows : list (list str)) (fault : option str)
  | Locked.

(** The fields of [datetime.now()]. *)
Record datetime := Datetime {
  year : nat;
  month : nat;
  day : nat;
  hour : nat;
  minute : nat;
  second : nat;
  microsecond : nat
}.

Record world := World {
  keyboard : list event;
  screen : list str;
  disk : gmap str node;
  (** [clock k]: the answer of the [k]-th call of [datetime.now()] *)
  clock : nat -> datetime;
  ticks : nat
}.

Definition prog (A : Type) : Type := world -> res A * world.

#[global] Instance prog_ret : MRet prog := fun A a w => (Done a, w).
#[global] Instance prog_bind : MBind prog := fun A B f m w =>
  match m w with
  | (Done a, w') => f a w'
  | (Failed e, w') => (Failed e, w')
  end.

Definition raise {A} (e : error) : prog A := fun w => (Failed e, w).

(** [try: body / except <cls> as e: handler e] *)
Definition try_ {A} (body : prog A) (cls : error -> bool)
    (handler : error -> prog A) : prog A := fun w =>
  match body w with
  | (Done a, w') => (Done a, w')
  | (Failed e, w') => if cls e then handler e w' else (Failed e, w')
  end.

Definition show (lines : list str) (w : world) : world :=
  World (keyboard w) (screen w ++ lines) (disk w) (clock w) (ticks w).

(** A computation of the classifier, run at the console. *)
Definition run_io {A} (m : io A) : prog A := fun w =>
  (match outcome m with
   | Ret a => Done a
   | Raise e => Failed (LibraryError e)
   end, show (stdout m) w).

(** [print(line)] *)
Definition say (line : str) : prog unit := run_io (print line).

(** [input(prompt)] *)
Definition input (prompt : str) : prog str := fun w =>
  let w := show [prompt] w in
  match keyboard w with
  | [] => (Failed EOFError, w)
  | CtrlC :: rest =>
      (Failed KeyboardInterrupt,
       World rest (screen w) (disk w) (clock w) (ticks w))
  | Line text :: rest =>
      (Done text, World rest (screen w) (disk w) (clock w) (ticks w))
  end.

(** [os.path.exists(path)] *)
Definition os_path_exists (path : str) : prog bool := fun w =>
  (Done (bool_decide (is_Some (disk w !! path))), w).

(** [os.makedirs(path)] for a path that does not exist, in a directory
    where it can be made. *)
Definition os_makedirs (path : str) : prog unit := fun w =>
  (Done tt,
   World (keyboard w) (screen w) (<[path := Dir]> (disk w)) (clock w) (ticks w)).

(** [os.path.join(a, b)] with the separator [/]. *)
Definition os_path_join (a b : str) : str := a ++ u "/" ++ b.

(** [open(path, 'r', encoding='utf-8')] and [csv.reader] over it: the
    rows read, and the error that follows them, if any. *)
Definition open_reader (path : str) : prog (list (list str) * option str) :=
  fun w =>
    match disk w !! path with
    | None => (Failed (FileNotFoundError path), w)
    | Some Dir => (Failed (IsADirectoryError path), w)
    | Some Locked => (Failed (PermissionError path), w)
    | Some (File rows fault) => (Done (rows, fault), w)
    end.

(** [open(os.path.join(dir, name), 'w', newline='', encoding='utf-8')],
    [csv.writer] over it and one [writerow] for each of [rows]. *)
Definition write_rows (dir name : str) (rows : list (list str)) : prog unit :=
  fun w =>
    let path := os_path_join dir name in
    match disk w !! dir with
    | None => (Failed (FileNotFoundError path), w)
    | Some Dir =>
        match disk w !! path with
        | Some Dir => (Failed (IsADirectoryError path), w)
        | Some Locked => (Failed (PermissionError path), w)
        | _ =>
            (Done tt,
             World (keyboard w) (screen w)
               (<[path := File rows None]> (disk w)) (clock w) (ticks w))
        end
    | Some _ => (Failed (NotADirectoryError path), w)
    end.

(** [datetime.now()] *)
Definition datetime_now : prog datetime := fun w =>
  (Done (clock w (ticks w)),
   World (keyboard w) (screen w) (disk w) (clock w) (S (ticks w))).

(** A number in at least [width] digits, as [%m] or [%Y] print it. *)
Definition padded (width : nat) (n : nat) : str :=
  let digits := str_of_int (Z.of_nat n) in
  times (u "0") (width - length digits) ++ digits.

(** [d.strftime("%Y%m%d_%H%M%S")] *)
Definition strftime (d : datetime) : str :=
  padded 4 (year d) ++ padded 2 (month d) ++ padded 2 (day d) ++ u "_"
  ++ padded 2 (hour d) ++ padded 2 (minute d) ++ padded 2 (second d).

(** ** The collectors, the exporter and the menu *)

Inductive control :=
  | Continue
  | Break.

Section program.

(** [s.lower()] *)
Variable lower : str -> str.

(** [str(e)], the text of an exception. *)
Variable message : error -> str.

(** The loop [while True] of [leer_ips_manual]; [fuel] bounds the number
    of prompts. *)
Fixpoint manual_loop (fuel : nat) (ips : gset str) : prog (gset str) :=
  match fuel with
  | O => raise OutOfFuel
  | S fuel =>
      line ← input (u "IP> ");
      let ip := strip line in
      if bool_decide (lower ip = u "fin") then mret ips
      else
        let ips := if negb (not_ ip) then {[ ip ]} ∪ ips else ips in
        manual_loop fuel ips
  end.

Definition leer_ips_manual : prog (gset str) := fun w =>
  (let ips : gset str := ∅ in
   _ ← say (nl ++ u "📝 Ingrese las direcciones IP (una por línea)");
   _ ← say (u "   Escriba 'fin' para terminar:" ++ nl);
   manual_loop (S (length (keyboard w))) ips) w.

Definition lista_ips : list str :=
  [ u "192.168.1.1"; u "10.0.0.1"; u "8.8.8.8"; u "1.1.1.1";
    u "172.16.0.1"; u "208.67.222.222"; u "127.0.0.1"; u "169.254.1.1";
    u "224.0.0.1"; u "93.184.216.34"; u "192.168.100.50";
    u "142.251.41.14" ].

Definition leer_ips_lista : prog (gset str) :=
  _ ← say (nl ++ u "📋 Lista predefinida cargada con "
           ++ str_of_int (len lista_ips) ++ u " IPs");
  mret (list_to_set lista_ips).

(** The loop [for campo in row] of [leer_ips_csv]. *)
Definition add_row (ips : gset str) (row : list str) : gset str :=
  foldl (fun ips campo =>
           let ip := strip campo in
           if negb (not_ ip) then {[ ip ]} ∪ ips else ips) ips row.

(** The block [with open(...) as file:] of [leer_ips_csv], started with
    the set [ips]: the set as the block leaves it, and the exception
    that ended the block, if any. *)
Definition read_rows (archivo : str) (ips : gset str)
    : prog (gset str * option error) := fun w =>
  match open_reader archivo w with
  | (Failed e, w') => (Done (ips, Some e), w')
  | (Done (rows, fault), w') =>
      (Done (foldl add_row ips rows, ReadError <$> fault), w')
  end.

Definition leer_ips_csv : prog (gset str) :=
  let ips : gset str := ∅ in
  line ← input (nl ++ u "📁 Ingrese la ruta del archivo CSV: ");
  let archivo := strip line in
  found ← os_path_exists archivo;
  if negb found then
    _ ← say (u "  ❌ Error: El archivo '" ++ archivo ++ u "' no existe");
    mret ips
  else
    '(ips, raised) ← read_rows archivo ips;
    match raised with
    | None =>
        _ ← say (u "  ✅ Se leyeron " ++ str_of_int (Z.of_nat (size ips))
                 ++ u " IPs del archivo");
        mret ips
    | Some e =>
        if is_Exception e then
          _ ← say (u "  ❌ Error al leer el archivo: " ++ message e);
          mret ips
        else raise e
    end.

Definition guardar_resultado_csv (ips_publicas : list str) : prog str :=
  let output_dir := u "output" in
  found ← os_path_exists output_dir;
  _ ← (if negb found then os_makedirs output_dir else mret tt);
  now ← datetime_now;
  let timestamp := strftime now in
  let filename := u "ips_publicas_" ++ timestamp ++ u ".csv" in
  let filepath := os_path_join output_dir filename in
  _ ← write_rows output_dir filename
        ([u "IP_Publica"] :: ((fun ip => [ip]) <$> ips_publicas));
  mret filepath.

Definition mostrar_menu : prog unit :=
  _ ← say (nl ++ times (u "=") 50);
  _ ← say (u "     FILTRADOR DE IPs PÚBLICAS");
  _ ← say (times (u "=") 50);
  _ ← say (nl ++ u "Seleccione el método de entrada:");
  _ ← say (u "  1. 📝 Ingresar IPs manualmente");
  _ ← say (u "  2. 📋 Usar lista predefinida");
  _ ← say (u "  3. 📁 Cargar desde archivo CSV");
  _ ← say (u "  4. ❌ Salir");
  say (times (u "-") 50).

(** [for ip in ips_publicas: print(f"   • {ip}")] *)
Fixpoint say_each (ips_publicas : list str) : prog unit :=
  match ips_publicas with
  | [] => mret tt
  | ip :: rest => _ ← say (u "   • " ++ ip); say_each rest
  end.

(** One turn of the loop [while True] of [main]. *)
Definition main_body : prog control :=
  _ ← mostrar_menu;
  line ← input (nl ++ u "Opción [1-4]: ");
  let opcion := strip line in
  if bool_decide (opcion = u "4") then
    _ ← say (nl ++ u "👋 ¡Hasta luego!");
    mret Break
  else
    chosen ←
      (if bool_decide (opcion = u "1") then ips ← leer_ips_manual; mret (Some ips)
       else if bool_decide (opcion = u "2") then ips ← leer_ips_lista; mret (Some ips)
       else if bool_decide (opcion = u "3") then ips ← leer_ips_csv; mret (Some ips)
       else
         _ ← say (nl ++ u "⚠ Opción inválida. Por favor seleccione 1-4");
         mret None);
    match chosen with
    | None => mret Continue
    | Some ips =>
        if bool_decide (ips = ∅) then
          _ ← say (nl ++ u "⚠ No se encontraron IPs para procesar");
          mret Continue
        else
          ips_publicas ← run_io (filtrar_ips_publicas (elements ips));
          _ ← say (nl ++ times (u "=") 50);
          _ ← say (u "📊 RESUMEN:");
          _ ← say (u "  • IPs totales analizadas: "
                   ++ str_of_int (Z.of_nat (size ips)));
          _ ← say (u "  • IPs públicas encontradas: "
                   ++ str_of_int (len ips_publicas));
          _ ← say (u "  • IPs privadas/reservadas filtradas: "
                   ++ str_of_int (Z.of_nat (size ips) - len ips_publicas));
          _ ← (if negb (not_ ips_publicas) then
                 archivo_salida ← guardar_resultado_csv ips_publicas;
                 _ ← say (nl ++ u "✅ Resultado guardado en: " ++ archivo_salida);
                 _ ← say (nl ++ u "🌐 IPs públicas encontradas:");
                 say_each ips_publicas
               else
                 say (nl ++ u "⚠ No se encontraron IPs públicas en la entrada proporcionada"));
          _ ← input (nl ++ u "[Presione Enter para continuar...]");
          mret Continue
    end.

Fixpoint main_loop (fuel : nat) : prog unit :=
  match fuel with
  | O => raise OutOfFuel
  | S fuel =>
      next ← main_body;
      match next with
      | Break => mret tt
      | Continue => main_loop fuel
      end
  end.

Definition main : prog unit := fun w =>
  (_ ← say (nl ++ u "🚀 Iniciando programa de filtrado de IPs...");
   main_loop (S (length (keyboard w)))) w.

(** The block [if __name__ == "__main__":]. *)
Definition programa : prog unit :=
  try_ main (fun e => is_KeyboardInterrupt e || is_Exception e) (fun e =>
    if is_KeyboardInterrupt e then
      say (nl ++ nl ++ u "⚠ Programa interrumpido por el usuario")
    else
      say (nl ++ u "❌ Error inesperado: " ++ message e)).

End program.

(** ** Predicates on the program *)

(** The strings a collector keeps from the texts it reads: each one
    stripped, the empty ones dropped. *)
Definition collected (texts : list str) : gset str :=
  list_to_set (filter (λ ip, ip ≠ []) (strip <$> texts)).

(** A string as a collector stores it. *)
Definition stored (ip : str) : Prop := ip ≠ [] ∧ strip ip = ip.

(** The rows of an export of [ips_publicas]. *)
Definition export_rows (ips_publicas : list str) : list (list str) :=
  [u "IP_Publica"] :: ((λ ip, [ip]) <$> ips_publicas).

(** The path of an export made at the time [now]. *)
Definition export_path (now : datetime) : str :=
  u "output/ips_publicas_" ++ strftime now ++ u ".csv".

(** A list as [main] hands it to the exporter: not empty, sorted, without
    duplicates, and made of public addresses stored without white space
    around them. *)
Definition exportable (l : list str) : Prop :=
  l ≠ [] ∧ StronglySorted str_le l ∧ NoDup l
  ∧ Forall (λ ip, is_public ip = Ret true ∧ stored ip) l.

(** A file as the program exports it: the header, then one row for each
    address of such a list. *)
Definition is_export (n : node) : Prop :=
  ∃ l, n = File (export_rows l) None ∧ exportable l.

(** What the program may do to a disk [d], giving [d']: at each path,
    nothing; or make the directory [output] where nothing was; or write
    an export at an export path. *)
Definition touched (d d' : gmap str node) : Prop :=
  ∀ p, d' !! p = d !! p
       ∨ (p = u "output" ∧ d !! p = None ∧ d' !! p = Some Dir)
       ∨ (∃ now n, p = export_path now ∧ d' !! p = Some n ∧ is_export n).

(** A step of the program from [w] to [w']: it reads the keyboard
    forwards and touches the disk as above. *)
Definition advances (w w' : world) : Prop :=
  (length (keyboard w') <= length (keyboard w))%nat
  ∧ touched (disk w) (disk w').

(** A step that reads at least one event. *)
Definition consumes (w w' : world) : Prop :=
  (length (keyboard w') < length (keyboard w))%nat
  ∧ touched (disk w) (disk w').

(** [m] returns only values of [Q], after a step of [R]; when it fails,
    it is with an exception of Python, after a step of [advances]. *)
Definition triple {A} (R : world → world → Prop) (m : prog A)
    (Q : A → Prop) : Prop :=
  ∀ w, match m w with
       | (Done a, w') => Q a ∧ R w w'
       | (Failed e, w') => e ≠ OutOfFuel ∧ advances w w'
       end.

(** The directory [output] is there or can be made. *)
Definition output_ready (d : gmap str node) : Prop :=
  d !! u "output" = None ∨ d !! u "output" = Some Dir.

(** [open(path, 'w')] is not refused. *)
Definition writable (d : gmap str node) (path : str) : Prop :=
  d !! path ≠ Some Dir ∧ d !! path ≠ Some Locked.

(** [str.lower] on ASCII text. *)
Definition ascii_lower (s : str) : str :=
  (λ c, if (65 <=? c)%N && (c <=? 90)%N then (c + 32)%N else c) <$> s.

(** * Properties *)

(** ** The order on strings *)

Section string_order.

Lemma str_ltb_irrefl (a : str) : str_ltb a a = false.
Proof.
  induction a as [|x a IH]; simpl; [done|].
  by rewrite N.ltb_irrefl.
Qed.

Lemma str_ltb_asym (a b : str) : str_ltb a b = true → str_ltb b a = false.
Proof.
  revert b. induction a as [|x a IH]; intros [|y b]; simpl; try done.
  destruct (N.ltb_spec x y), (N.ltb_spec y x); try done; try lia.
  apply IH.
Qed.

Lemma str_ltb_connex (a b : str) :
  str_ltb a b = false → str_ltb b a = false → a = b.
Proof.
  revert b. induction a as [|x a IH]; intros [|y b]; simpl; try done.
  destruct (N.ltb_spec x y), (N.ltb_spec y x); try done.
  intros Hab Hba. f_equal; [lia|by apply IH].
Qed.

Lemma str_ltb_trans (a b c : str) :
  str_ltb a b = true → str_ltb b c = true → str_ltb a c = true.
Proof.
  revert b c. induction a as [|x a IH]; intros [|y b] [|z c]; simpl; try done.
  destruct (N.ltb_spec x y), (N.ltb_spec y x), (N.ltb_spec y z),
    (N.ltb_spec z y), (N.ltb_spec x z), (N.ltb_spec z x);
    try done; try lia.
  apply IH.
Qed.

(** Negative transitivity: what makes [<=] transitive. *)
Lemma str_ltb_cotrans (a b c : str) :
  str_ltb a c = true → str_ltb a b = true ∨ str_ltb b c = true.
Proof.
  revert b c. induction a as [|x a IH]; intros [|y b] [|z c]; simpl;
    try done; try (by left); try (by right);
    repeat match goal with
           | |- context [(?u <? ?v)%N] => destruct (N.ltb_spec u v)
           end;
    try done; try lia; try (by left); try (by right).
  apply IH.
Qed.

#[global] Instance str_le_total : Total str_le.
Proof.
  intros a b. unfold str_le.
  destruct (str_ltb b a) eqn:E; [right|by left].
  by apply str_ltb_asym.
Qed.

#[global] Instance str_le_trans : Transitive str_le.
Proof.
  intros a b c Hab Hbc. unfold str_le in *.
  destruct (str_ltb c a) eqn:E; [|done].
  destruct (str_ltb_cotrans c b a E); congruence.
Qed.

#[global] Instance str_le_antisym : AntiSymm (=) str_le.
Proof. intros a b Hab Hba. by apply str_ltb_connex. Qed.

#[global] Instance str_le_refl : Reflexive str_le.
Proof. intros a. apply str_ltb_irrefl. Qed.

End string_order.

(** ** [sorted] *)

Section sorted_facts.

Lemma sorted_Permutation (l : list str) : sorted l ≡ₚ l.
Proof. apply merge_sort_Permutation. Qed.

Lemma sorted_StronglySorted (l : list str) : StronglySorted str_le (sorted l).
Proof. apply StronglySorted_merge_sort; apply _. Qed.

(** Two visits of the same elements sort to the same list. *)
Lemma sorted_perm_eq (l1 l2 : list str) : l1 ≡ₚ l2 → sorted l1 = sorted l2.
Proof.
  intros Hp. apply (StronglySorted_unique str_le).
  - apply sorted_StronglySorted.
  - apply sorted_StronglySorted.
  - by rewrite !sorted_Permutation.
Qed.

Lemma sorted_id (l : list str) : StronglySorted str_le l → sorted l = l.
Proof.
  intros Hs. apply (StronglySorted_unique str_le); [|done|].
  - apply sorted_StronglySorted.
  - apply sorted_Permutation.
Qed.

Lemma sorted_NoDup (l : list str) : NoDup l → NoDup (sorted l).
Proof. intros Hn. by rewrite sorted_Permutation. Qed.

Lemma elem_of_sorted (l : list str) (x : str) : x ∈ sorted l ↔ x ∈ l.
Proof. by rewrite sorted_Permutation. Qed.

Lemma length_sorted (l : list str) : length (sorted l) = length l.
Proof. by rewrite sorted_Permutation. Qed.

End sorted_facts.

(** ** Exceptions *)

Section exceptions.

Lemma bind_Ret_inv {A B : Type} (m : result A) (f : A → result B) (b : B) :
  m ≫= f = Ret b → ∃ a, m = Ret a ∧ f a = Ret b.
Proof. destruct m as [a|e]; simpl; [eauto|done]. Qed.

Lemma bind_Raise_inv {A B : Type} (m : result A) (f : A → result B) (e : exn) :
  m ≫= f = Raise e → m = Raise e ∨ ∃ a, m = Ret a ∧ f a = Raise e.
Proof. destruct m as [a|e']; simpl; [eauto|]. intros [= ->]. by left. Qed.

Lemma raises_only_Ret {A : Type} (cls : exn → bool) (a : A) : raises_only cls (Ret a).
Proof. by intros e. Qed.

Lemma raises_only_Raise {A : Type} (cls : exn → bool) (e : exn) :
  cls e = true → raises_only cls (@Raise A e).
Proof. intros He e' [= <-]. done. Qed.

Lemma raises_only_bind {A B : Type} (cls : exn → bool) (m : result A) (f : A → result B) :
  raises_only cls m →
  (∀ a, m = Ret a → raises_only cls (f a)) →
  raises_only cls (m ≫= f).
Proof.
  intros Hm Hf e He. apply bind_Raise_inv in He as [He|(a & Ha & He)].
  - by apply Hm.
  - by apply (Hf a).
Qed.

Lemma raises_only_try_except {A : Type} (cls caught : exn → bool) (body : result A)
    (handler : exn → result A) :
  (∀ e, body = Raise e → caught e = false → cls e = true) →
  (∀ e, body = Raise e → caught e = true → raises_only cls (handler e)) →
  raises_only cls (try_except body caught handler).
Proof.
  intros Hpass Hcaught e. unfold try_except.
  destruct body as [a|e']; [done|].
  destruct (caught e') eqn:Hc.
  - by apply Hcaught.
  - intros [= <-]. by apply Hpass.
Qed.

Lemma raises_only_for {A B : Type} (cls : exn → bool) (I : B → Prop)
    (l : list A) (acc : B) (body : B → A → result B) :
  I acc →
  (∀ acc x, x ∈ l → I acc → raises_only cls (body acc x)) →
  (∀ acc x acc', x ∈ l → I acc → body acc x = Ret acc' → I acc') →
  raises_only cls (for_ l acc body) ∧
  ∀ r, for_ l acc body = Ret r → I r.
Proof.
  revert acc. induction l as [|x l IH]; intros acc Hacc Hr Hi; simpl.
  - split; [apply raises_only_Ret|]. by intros r [= <-].
  - split.
    + apply raises_only_bind.
      * apply Hr; [left|done].
      * intros acc' Hacc'. apply IH.
        -- eapply Hi; [left|done..].
        -- intros ? ? ?. apply Hr. by right.
        -- intros ? ? ? ?. apply Hi. by right.
    + intros r Hret. apply bind_Ret_inv in Hret as (acc' & Hacc' & Hret).
      revert Hret. apply IH.
      * eapply Hi; [left|done..].
      * intros ? ? ?. apply Hr. by right.
      * intros ? ? ? ?. apply Hi. by right.
Qed.

Lemma raises_only_map {A B : Type} (cls : exn → bool) (f : A → result B) (l : list A) :
  (∀ x, x ∈ l → raises_only cls (f x)) → raises_only cls (map_ f l).
Proof.
  induction l as [|x l IH]; intros Hf; simpl; [apply raises_only_Ret|].
  apply raises_only_bind; [apply Hf; left|]. intros y _.
  apply raises_only_bind; [apply IH; intros; apply Hf; by right|].
  intros ys _. apply raises_only_Ret.
Qed.

Lemma getitem_nonneg {A : Type} (l : list A) (i : Z) :
  0 ≤ i < len l → ∃ x, getitem l i = Ret x ∧ l !! Z.to_nat i = Some x.
Proof.
  intros Hi. unfold getitem, len in *.
  destruct (Z.ltb_spec i 0); [lia|].
  destruct (Z.ltb_spec i 0); [lia|].
  destruct (Z.leb_spec (Z.of_nat (length l)) i); [lia|]. simpl.
  destruct (lookup_lt_is_Some_2 l (Z.to_nat i)) as [x Hx]; [lia|].
  rewrite Hx. eauto.
Qed.

Lemma getitem_neg {A : Type} (l : list A) (i : Z) :
  - len l ≤ i < 0 → ∃ x, getitem l i = Ret x.
Proof.
  intros Hi. unfold getitem, len in *.
  destruct (Z.ltb_spec i 0); [|lia].
  destruct (Z.ltb_spec (i + Z.of_nat (length l)) 0); [lia|].
  destruct (Z.leb_spec (Z.of_nat (length l)) (i + Z.of_nat (length l))); [lia|].
  simpl.
  destruct (lookup_lt_is_Some_2 l (Z.to_nat (i + Z.of_nat (length l))))
    as [x Hx]; [lia|].
  rewrite Hx. eauto.
Qed.

Lemma getitem_in_range {A : Type} (cls : exn → bool) (l : list A) (i : Z) :
  - len l ≤ i < len l → raises_only cls (getitem l i).
Proof.
  intros Hi. destruct (Z.ltb_spec i 0).
  - destruct (getitem_neg l i) as [x ->]; [lia|]. apply raises_only_Ret.
  - destruct (getitem_nonneg l i) as (x & -> & _); [lia|].
    apply raises_only_Ret.
Qed.

End exceptions.

Lemma elem_of_range (a b i : Z) : i ∈ range a b ↔ a ≤ i < b.
Proof. unfold range. rewrite elem_of_seqZ. lia. Qed.

(** ** The parsers raise nothing but [AddressValueError] *)

Ltac raise_ := apply raises_only_Raise; reflexivity.
Ltac ret_ := apply raises_only_Ret.
Ltac len_lia := unfold len, BaseV6._HEXTET_COUNT, str, char in *; lia.
Ltac branch :=
  match goal with
  | |- raises_only _ (if ?b then _ else _) => destruct b eqn:?
  end.

Section parser_raises.

Lemma int_raises (s : str) (base : Z) : raises_only is_ValueError (int_ s base).
Proof.
  unfold int_. destruct (not_ s); [raise_|].
  branch; [ret_|raise_].
Qed.

Lemma parse_octet_raises (s : str) :
  raises_only is_ValueError (BaseV4._parse_octet s).
Proof.
  unfold BaseV4._parse_octet.
  destruct s as [|c s]; simpl not_; [raise_|].
  destruct (negb (isascii_and_isdigit _)); [raise_|].
  destruct (3 <? _); [raise_|].
  apply raises_only_bind.
  { unfold and_. destruct (negb _); [|ret_].
    apply raises_only_bind; [|intros; ret_].
    apply getitem_in_range. unfold len. simpl. lia. }
  intros leading_zero _.
  destruct leading_zero; [raise_|].
  apply raises_only_bind; [apply int_raises|].
  intros n _. destruct (255 <? n); [raise_|ret_].
Qed.

Lemma v4_ip_int_raises (s : str) :
  raises_only is_AddressValueError (BaseV4._ip_int_from_string s).
Proof.
  unfold BaseV4._ip_int_from_string.
  destruct (not_ s); [raise_|]. cbv zeta.
  destruct (negb _); [raise_|].
  apply raises_only_try_except; [|intros; raise_].
  intros e He Hc. exfalso.
  assert (is_ValueError e = true) as He'; [|congruence].
  clear Hc; revert e He. apply raises_only_bind; [|intros; ret_].
  apply raises_only_map. intros. apply parse_octet_raises.
Qed.

Lemma IPv4Address_raises (s : str) :
  raises_only is_AddressValueError (IPv4Address s).
Proof.
  unfold IPv4Address. destruct (contains _ s); [raise_|].
  apply raises_only_bind; [apply v4_ip_int_raises|]. intros; ret_.
Qed.

Lemma parse_hextet_raises (s : str) :
  raises_only is_ValueError (BaseV6._parse_hextet s).
Proof.
  unfold BaseV6._parse_hextet.
  destruct (negb _); [raise_|]. destruct (4 <? _); [raise_|].
  apply int_raises.
Qed.

Lemma read_hextet_raises (parts : list str) (ip_int i : Z) :
  - len parts ≤ i < len parts →
  raises_only is_ValueError (BaseV6.read_hextet parts ip_int i).
Proof.
  intros Hi. unfold BaseV6.read_hextet. cbv zeta.
  apply raises_only_bind; [by apply getitem_in_range|]. intros part _.
  apply raises_only_bind; [apply parse_hextet_raises|]. intros; ret_.
Qed.

Lemma len_removelast_app2 (parts : list str) (x y : str) :
  1 ≤ len parts → len (removelast parts ++ [x; y]) = len parts + 1.
Proof.
  unfold len. intros H. rewrite !length_app. simpl.
  destruct parts as [|p parts] using rev_ind; [simpl in H; lia|].
  rewrite removelast_last, length_app. simpl. lia.
Qed.

Lemma v6_ip_int_raises (s : str) :
  raises_only is_AddressValueError (BaseV6._ip_int_from_string s).
Proof.
  unfold BaseV6._ip_int_from_string.
  destruct (not_ s); [raise_|].
  generalize (split (ord ":") s). intros parts. cbv zeta.
  destruct (Z.ltb_spec (len parts) 3) as [|Hlen]; [raise_|].
  apply raises_only_bind; [apply getitem_in_range; len_lia|].
  intros last_part _.
  apply raises_only_bind.
  { destruct (contains _ last_part); [|ret_].
    apply raises_only_bind; [|intros; ret_].
    apply raises_only_try_except; [|intros; raise_].
    intros e He Hc. apply bind_Raise_inv in He as [He|(a & _ & He)]; [|done].
    by apply IPv4Address_raises in He. }
  intros parts' Hparts'.
  assert (3 ≤ len parts') as Hlen'.
  { destruct (contains _ last_part).
    - apply bind_Ret_inv in Hparts' as (n & _ & [= <-]).
      rewrite len_removelast_app2; len_lia.
    - injection Hparts' as <-. done. }
  clear Hparts' Hlen last_part parts. rename parts' into parts.
  destruct (Z.ltb_spec (BaseV6._HEXTET_COUNT + 1) (len parts)); [raise_|].
  match goal with
  | |- raises_only _ (for_ ?l ?acc ?body ≫= _) =>
      destruct (raises_only_for is_AddressValueError
                  (λ sk : option Z, ∀ k, sk = Some k → 1 ≤ k < len parts - 1)
                  l acc body) as [Hfor_r Hfor_i]
  end.
  { done. }
  { intros sk i Hi%elem_of_range _.
    apply raises_only_bind; [apply getitem_in_range; len_lia|].
    intros part _. destruct (not_ part); [|ret_].
    destruct sk; [raise_|ret_]. }
  { intros sk i sk' Hi%elem_of_range Hsk Hbody k ->.
    apply bind_Ret_inv in Hbody as (part & _ & Hbody).
    destruct (not_ part).
    - destruct sk; [done|]. injection Hbody as <-. len_lia.
    - injection Hbody as ->. by apply Hsk. }
  apply raises_only_bind; [exact Hfor_r|].
  intros sk Hfor. pose proof (Hfor_i _ Hfor) as Hsk. clear Hfor Hfor_r Hfor_i.
  apply raises_only_bind.
  { destruct sk as [k|].
    - specialize (Hsk k eq_refl).
      apply raises_only_bind; [apply getitem_in_range; len_lia|]. intros first _.
      apply raises_only_bind.
      { destruct (not_ first); [|ret_]. cbv zeta.
        destruct (negb _); [raise_|ret_]. }
      intros hi _.
      apply raises_only_bind; [apply getitem_in_range; len_lia|]. intros lp _.
      apply raises_only_bind.
      { destruct (not_ lp); [|ret_]. cbv zeta.
        destruct (negb _); [raise_|ret_]. }
      intros lo _. cbv zeta. destruct (_ <? 1); [raise_|ret_].
    - destruct (negb _); [raise_|].
      apply raises_only_bind; [apply getitem_in_range; len_lia|]. intros first _.
      destruct (not_ first); [raise_|].
      apply raises_only_bind; [apply getitem_in_range; len_lia|]. intros lp _.
      destruct (not_ lp); [raise_|ret_]. }
  intros [[hi lo] skipped] Htriple.
  assert (0 ≤ hi ≤ len parts ∧ 0 ≤ lo ≤ len parts) as [Hhi Hlo].
  { destruct sk as [k|].
    - specialize (Hsk k eq_refl).
      apply bind_Ret_inv in Htriple as (first & _ & Htriple).
      apply bind_Ret_inv in Htriple as (hi' & Hhi & Htriple).
      apply bind_Ret_inv in Htriple as (lp & _ & Htriple).
      apply bind_Ret_inv in Htriple as (lo' & Hlo & Htriple).
      cbv zeta in *.
      destruct (_ <? 1); [done|]. injection Htriple as <- <- <-.
      destruct (not_ first), (not_ lp);
        repeat match goal with
               | H : (if negb ?b then _ else _) = _ |- _ => destruct b; simpl in H
               end;
        simplify_eq; len_lia.
    - destruct (negb _); [done|].
      apply bind_Ret_inv in Htriple as (first & _ & Htriple).
      destruct (not_ first); [done|].
      apply bind_Ret_inv in Htriple as (lp & _ & Htriple).
      destruct (not_ lp); [done|]. injection Htriple as <- <- <-. len_lia. }
  apply raises_only_try_except; [|intros; raise_].
  intros e He Hc. exfalso.
  match type of He with
  | ?b = _ => assert (raises_only is_ValueError b) as Hb
  end; [|apply Hb in He; congruence].
  clear Hc He.
  match goal with
  | |- raises_only _ (for_ ?l ?acc ?body ≫= _) =>
      destruct (raises_only_for is_ValueError (λ _ : Z, True) l acc body)
        as [Hr1 _]
  end; [done|..|done|].
  { intros acc i Hi%elem_of_range _. apply read_hextet_raises. len_lia. }
  apply raises_only_bind; [exact Hr1|]. intros ip_int _. cbv zeta.
  match goal with
  | |- raises_only _ (for_ ?l ?acc ?body) =>
      destruct (raises_only_for is_ValueError (λ _ : Z, True) l acc body)
        as [Hr2 _]
  end; [done|..|done|exact Hr2].
  intros acc i Hi%elem_of_range _. apply read_hextet_raises. len_lia.
Qed.

Lemma split_scope_id_raises (s : str) :
  raises_only is_AddressValueError (BaseV6._split_scope_id s).
Proof.
  unfold BaseV6._split_scope_id.
  destruct (partition _ s) as [[addr sep] scope].
  destruct (negb sep); [ret_|]. destruct (_ || _); [raise_|ret_].
Qed.

Lemma IPv6Address_raises (s : str) :
  raises_only is_AddressValueError (IPv6Address s).
Proof.
  unfold IPv6Address. destruct (contains _ s); [raise_|].
  apply raises_only_bind; [apply split_scope_id_raises|].
  intros [addr scope] _.
  apply raises_only_bind; [apply v6_ip_int_raises|]. intros; ret_.
Qed.

(** [ip_address] either returns an address or raises [ValueError]. *)
Lemma ip_address_raises (s : str) (e : exn) :
  ip_address s = Raise e → e = ValueError.
Proof.
  unfold ip_address, try_except.
  destruct (IPv4Address s) as [a|e4] eqn:H4; [done|].
  apply IPv4Address_raises in H4.
  destruct e4; try done. simpl.
  destruct (IPv6Address s) as [a|e6] eqn:H6; [done|].
  apply IPv6Address_raises in H6.
  destruct e6; try done. simpl. congruence.
Qed.

End parser_raises.

(** ** [strip] *)

Section strip_facts.

Lemma lstrip_no_leading_space (s : str) : no_leading_space (lstrip s).
Proof.
  induction s as [|c s IH]; simpl; [done|].
  destruct (isspace c) eqn:Hc; [done|]. simpl. done.
Qed.

Lemma lstrip_fixed (s : str) : no_leading_space s → lstrip s = s.
Proof. destruct s as [|c s]; simpl; [done|]. by intros ->. Qed.

Lemma lstrip_snoc (s : str) (c : char) :
  isspace c = false → lstrip (s ++ [c]) = lstrip s ++ [c].
Proof.
  intros Hc. induction s as [|d s IH]; simpl.
  - by rewrite Hc.
  - by destruct (isspace d).
Qed.

Lemma rstrip_no_leading_space (s : str) :
  no_leading_space s → no_leading_space (rstrip s).
Proof.
  unfold rstrip. destruct s as [|c s]; simpl; [done|]. intros Hc.
  rewrite reverse_cons, lstrip_snoc, reverse_app by done. simpl. done.
Qed.

Lemma rstrip_idemp (s : str) : rstrip (rstrip s) = rstrip s.
Proof.
  unfold rstrip. rewrite reverse_involutive. f_equal.
  apply lstrip_fixed, lstrip_no_leading_space.
Qed.

Lemma strip_idemp (s : str) : strip (strip s) = strip s.
Proof.
  unfold strip.
  rewrite (lstrip_fixed (rstrip (lstrip s))).
  - apply rstrip_idemp.
  - apply rstrip_no_leading_space, lstrip_no_leading_space.
Qed.

End strip_facts.

(** ** The classifier *)

Section classifier.

(** On a string that parses, the classifier returns the disjunction of
    the range checks and prints nothing. *)
Lemma es_ip_privada_parsed (ip_str : str) (ip : ip_object) :
  ip_address (strip ip_str) = Ret ip →
  es_ip_privada ip_str =
    IO (Ret (is_private ip || is_reserved ip || is_loopback ip
             || is_link_local ip || is_multicast ip
             || isinstance_IPv6Address ip && V6.is_site_local ip)) [].
Proof.
  intros Hp. unfold es_ip_privada, io_try_except, mbind, io_bind, lift.
  rewrite Hp. cbn [outcome stdout app]. unfold or_, and_.
  destruct (is_private ip), (is_reserved ip), (is_loopback ip),
    (is_link_local ip), (is_multicast ip); simpl; try done;
    by destruct ip.
Qed.

(** On a string that does not parse, it reports the string and returns
    [True]. *)
Lemma es_ip_privada_unparsed (ip_str : str) (e : exn) :
  ip_address (strip ip_str) = Raise e →
  es_ip_privada ip_str = IO (Ret true) [msg_invalida ip_str].
Proof.
  intros Hp. pose proof (ip_address_raises _ _ Hp) as ->.
  unfold es_ip_privada, io_try_except. rewrite Hp. done.
Qed.

Lemma es_ip_privada_returns (ip_str : str) :
  ∃ b, outcome (es_ip_privada ip_str) = Ret b.
Proof.
  destruct (ip_address (strip ip_str)) as [ip|e] eqn:Hp.
  - rewrite (es_ip_privada_parsed _ _ Hp). eauto.
  - rewrite (es_ip_privada_unparsed _ _ Hp). eauto.
Qed.

Lemma is_public_returns (raw : str) : ∃ b, is_public raw = Ret b.
Proof.
  unfold is_public. destruct (es_ip_privada_returns raw) as [b ->].
  simpl. eauto.
Qed.

Lemma es_ip_privada_is_public (ip : str) (privada : bool) :
  outcome (es_ip_privada ip) = Ret privada →
  is_public ip = Ret (negb privada).
Proof. unfold is_public. by intros ->. Qed.

End classifier.

(** ** The filter *)

Section filter_facts.

(** The loop appends, in the order of the visit, the strings the
    classifier accepts. *)
Lemma filtrar_loop_outcome (ips ips_publicas : list str) :
  outcome (filtrar_loop ips ips_publicas) =
    Ret (ips_publicas ++ filter (λ ip, is_public ip = Ret true) ips).
Proof.
  revert ips_publicas. induction ips as [|ip ips IH]; intros acc; simpl.
  - by rewrite app_nil_r.
  - destruct (es_ip_privada_returns ip) as [privada Hp].
    pose proof (es_ip_privada_is_public _ _ Hp) as Hpub.
    unfold mbind at 1, io_bind. rewrite Hp. simpl.
    destruct privada; simpl in *.
    + rewrite IH, filter_cons_False; [done|]. rewrite Hpub. done.
    + rewrite IH, filter_cons_True by done. by rewrite <-app_assoc.
Qed.

Lemma filtrar_ips_publicas_outcome (ips : list str) :
  outcome (filtrar_ips_publicas ips) =
    Ret (sorted (filter (λ ip, is_public ip = Ret true) ips)).
Proof.
  unfold filtrar_ips_publicas. cbv zeta.
  unfold mbind, io_bind. simpl.
  rewrite filtrar_loop_outcome. done.
Qed.

Lemma filter_public_eq (addresses : gset str) :
  filter_public addresses =
    Ret (sorted (filter (λ ip, is_public ip = Ret true) (elements addresses))).
Proof. apply filtrar_ips_publicas_outcome. Qed.

(** Any sequence that visits each element of the set once. *)
Lemma visit_Permutation (addresses : gset str) (ips : list str) :
  NoDup ips → (∀ a, a ∈ ips ↔ a ∈ addresses) → ips ≡ₚ elements addresses.
Proof.
  intros Hnd Hel. apply NoDup_Permutation; [done|apply NoDup_elements|].
  intros a. by rewrite Hel, elem_of_elements.
Qed.

Lemma filter_all {A} (P : A → Prop) `{∀ x, Decision (P x)} (l : list A) :
  Forall P l → filter P l = l.
Proof.
  induction 1 as [|a l Ha _ IH]; [done|]. by rewrite filter_cons_True, IH.
Qed.

End filter_facts.

(** ** Networks *)

Section networks.

(** Every literal of the tables is a well-formed network of its family. *)
Lemma tables_built :
  Forall (λ net, net_version net = 4)
    ([ IPv4Constants._linklocal_network; IPv4Constants._loopback_network;
       IPv4Constants._multicast_network; IPv4Constants._public_network;
       IPv4Constants._reserved_network; shared_address_space ]
     ++ IPv4Constants._private_networks
     ++ IPv4Constants._private_networks_exceptions)
  ∧ Forall (λ net, net_version net = 6)
      ([ IPv6Constants._linklocal_network; IPv6Constants._multicast_network;
         IPv6Constants._sitelocal_network ]
       ++ IPv6Constants._private_networks
       ++ IPv6Constants._private_networks_exceptions
       ++ IPv6Constants._reserved_networks).
Proof. split; repeat constructor. Qed.

Lemma in_network_version (ip : ip_object) (net : network) :
  in_network ip net = true → net_version net = _version ip.
Proof.
  unfold in_network. destruct (Z.eqb_spec (net_version net) (_version ip)); done.
Qed.

Lemma in_network_shiftr (ip : ip_object) (net : network) (k : Z) :
  in_network ip net = true →
  Z.land (Z.shiftr (_ip ip) k) (Z.shiftr (netmask net) k)
  = Z.shiftr (network_address net) k.
Proof.
  unfold in_network. destruct (negb _); [done|].
  intros H%Z.eqb_eq. by rewrite <-Z.shiftr_land, H.
Qed.

Lemma shared_not_in (ip : ip_object) (net : network) :
  in_network ip shared_address_space = true →
  apart_from_shared net = true →
  in_network ip net = false.
Proof.
  intros Hs Ha. apply (in_network_shiftr _ _ 28) in Hs.
  change (Z.land (Z.shiftr (_ip ip) 28) 15 = 6) in Hs.
  destruct (in_network ip net) eqn:Hn; [|done].
  apply (in_network_shiftr _ _ 28) in Hn.
  unfold apart_from_shared in Ha.
  apply andb_true_iff in Ha as [Hm%Z.eqb_eq Hb%negb_true_iff%Z.eqb_neq].
  rewrite Hm in Hn. congruence.
Qed.

Lemma shared_not_in_any (ip : ip_object) (nets : list network) :
  in_network ip shared_address_space = true →
  forallb apart_from_shared nets = true →
  existsb (λ net, in_network ip net) nets = false.
Proof.
  intros Hs. induction nets as [|net nets IH]; cbn [forallb existsb]; [done|].
  intros [Hn Hns]%andb_true_iff.
  by rewrite (shared_not_in ip net), IH.
Qed.

End networks.

(** ** Networks as intervals *)

Section intervals.

(** The netmask of a prefix of [p] bits clears the [w - p] low bits of a
    [w]-bit address. *)
Lemma land_netmask (w p ip : Z) :
  0 ≤ p ≤ w → 0 ≤ ip < 2 ^ w →
  Z.land ip (_ip_int_from_prefix (2 ^ w - 1) p) = ip - ip mod 2 ^ (w - p).
Proof.
  intros Hp Hip. unfold _ip_int_from_prefix.
  replace (2 ^ w - 1) with (Z.ones w) by (rewrite Z.ones_equiv; lia).
  replace (ip - ip mod 2 ^ (w - p)) with (Z.shiftl (Z.shiftr ip (w - p)) (w - p)).
  2:{ rewrite Z.shiftl_mul_pow2, Z.shiftr_div_pow2 by lia.
      pose proof (Z.div_mod ip (2 ^ (w - p))). lia. }
  apply Z.bits_inj'. intros i Hi.
  rewrite Z.land_spec, Z.lxor_spec, Z.shiftr_spec, !Z.testbit_ones_nonneg by lia.
  destruct (Z.ltb_spec i (w - p)) as [Hlt|Hge].
  - rewrite Z.shiftl_spec_low by lia.
    destruct (Z.ltb_spec i w), (Z.ltb_spec (i + p) w); try lia.
    simpl. apply andb_false_r.
  - rewrite Z.shiftl_spec_high, Z.shiftr_spec by lia.
    replace (i - (w - p) + (w - p)) with i by lia.
    destruct (Z.ltb_spec i w), (Z.ltb_spec (i + p) w); try lia; simpl.
    + apply andb_true_r.
    + rewrite andb_false_r. symmetry.
      destruct (Z.eq_dec ip 0) as [->|]; [apply Z.bits_0|].
      apply Z.bits_above_log2; [lia|].
      pose proof (Z.pow_le_mono_r 2 w i ltac:(lia) ltac:(lia)).
      apply Z.log2_lt_pow2; lia.
Qed.

(** Membership in a network with an aligned base is membership in an
    interval of addresses. *)
Lemma land_netmask_interval (w p ip base : Z) :
  0 ≤ p ≤ w → 0 ≤ ip < 2 ^ w → base mod 2 ^ (w - p) = 0 →
  Z.land ip (_ip_int_from_prefix (2 ^ w - 1) p) = base
  ↔ base ≤ ip < base + 2 ^ (w - p).
Proof.
  intros Hp Hip Hbase. rewrite land_netmask by done.
  assert (0 < 2 ^ (w - p)) as Hpos by (apply Z.pow_pos_nonneg; lia).
  pose proof (Z.mod_pos_bound ip _ Hpos) as Hm.
  pose proof (Z.div_mod ip (2 ^ (w - p)) ltac:(lia)) as Hd.
  pose proof (Z.div_mod base (2 ^ (w - p)) ltac:(lia)) as Hb.
  rewrite Hbase in Hb. split.
  - lia.
  - intros Hr.
    assert (ip `div` 2 ^ (w - p) = base `div` 2 ^ (w - p)); [|lia].
    nia.
Qed.

Lemma in_network_interval (w : Z) (ip : ip_object) (net : network) :
  net_version net = _version ip →
  0 ≤ prefixlen net ≤ w →
  0 ≤ _ip ip < 2 ^ w →
  netmask net = _ip_int_from_prefix (2 ^ w - 1) (prefixlen net) →
  network_address net mod 2 ^ (w - prefixlen net) = 0 →
  in_network ip net = true
  ↔ network_address net ≤ _ip ip < network_address net + 2 ^ (w - prefixlen net).
Proof.
  intros Hv Hp Hip Hmask Hbase. unfold in_network.
  rewrite Hv, Z.eqb_refl. cbn [negb]. rewrite Z.eqb_eq, Hmask.
  by apply land_netmask_interval.
Qed.

End intervals.

Ltac eval_bounds :=
  repeat match goal with
    | |- context [network_address ?net] =>
        let v := eval vm_compute in (network_address net) in
        change (network_address net) with v
    | |- context [prefixlen ?net] =>
        let v := eval vm_compute in (prefixlen net) in
        change (prefixlen net) with v
    | |- context [dotted ?a ?b ?c ?d] =>
        let v := eval vm_compute in (dotted a b c d) in
        change (dotted a b c d) with v
    | |- context [Z.pow ?a ?b] =>
        let v := eval vm_compute in (Z.pow a b) in
        change (Z.pow a b) with v
    | |- context [Z.mul ?a ?b] =>
        let v := eval vm_compute in (Z.mul a b) in
        change (Z.mul a b) with v
    end.

Ltac network_interval w :=
  match goal with
  | |- in_network ?ip ?net = true ↔ _ =>
      rewrite (in_network_interval w ip net);
      [ cbn [_ip]; eval_bounds; lia
      | reflexivity
      | vm_compute; split; discriminate
      | done
      | vm_compute; reflexivity
      | vm_compute; reflexivity ]
  end.

(** An IPv4 address is in 100.64.0.0/10 exactly when it lies between
    100.64.0.0 and 100.127.255.255. *)
Lemma shared_address_space_interval (n : Z) :
  0 ≤ n < 2 ^ 32 →
  in_network (IPv4 n) shared_address_space = true
  ↔ dotted 100 64 0 0 ≤ n ≤ dotted 100 127 255 255.
Proof. intros Hn. network_interval 32. Qed.

(** * The claims *)

Section claims.

(** C1. For a string that parses (after trimming) as an IPv4 or IPv6
    address, [is_public] returns false exactly when the parsed address is
    in a private, reserved, loopback, link-local or multicast range or,
    for an IPv6 address, in the site-local range; otherwise it returns
    true. *)
Theorem is_public_parsed (raw : str) (ip : ip_object) :
  ip_address (strip raw) = Ret ip →
  (is_public raw = Ret false ↔ in_non_public_range ip)
  ∧ (is_public raw = Ret true ↔ ¬ in_non_public_range ip).
Proof.
  intros Hp. unfold is_public.
  rewrite (es_ip_privada_parsed _ _ Hp). cbn [outcome mbind result_bind].
  match goal with |- context [negb ?c] => set (b := c) end.
  assert (b = true ↔ in_non_public_range ip) as <-.
  { unfold b, in_non_public_range.
    rewrite !orb_true_iff, andb_true_iff. tauto. }
  destruct b; cbn [negb]; intuition congruence.
Qed.

Lemma is_public_parsed_witness :
  ip_address (strip (py "fec0::1")) = Ret (IPv6 338620831926207318622244848606417780737 None)
  ∧ (is_public (py "fec0::1") = Ret false
     ↔ in_non_public_range (IPv6 338620831926207318622244848606417780737 None)).
Proof.
  split; [vm_compute; reflexivity|].
  apply (is_public_parsed (py "fec0::1")). vm_compute. reflexivity.
Defined.



(** C3. The list [filter_public] returns is sorted in ascending
    lexicographic order of code points and has no duplicates, and it is
    the same list in whatever order the set is visited. *)
Theorem filter_public_sorted (addresses : gset str) :
  ∃ l : list str,
    filter_public addresses = Ret l
    ∧ StronglySorted str_le l
    ∧ NoDup l
    ∧ ∀ ips : list str,
        NoDup ips → (∀ a, a ∈ ips ↔ a ∈ addresses) →
        outcome (filtrar_ips_publicas ips) = Ret l.
Proof.
  eexists. split; [apply filter_public_eq|].
  split; [apply sorted_StronglySorted|].
  split; [apply sorted_NoDup, NoDup_filter, NoDup_elements|].
  intros ips Hnd Hel. rewrite filtrar_ips_publicas_outcome. f_equal.
  apply sorted_perm_eq. by rewrite (visit_Permutation addresses ips).
Qed.

(** C4. A string is in [filter_public S] exactly when it is in [S] and
    [is_public] accepts it; the length of the result and the number of
    elements of [S] that [is_public] rejects add up to the size of [S]. *)
Theorem filter_public_complete (S : gset str) :
  ∃ l : list str,
    filter_public S = Ret l
    ∧ (∀ a : str, a ∈ l ↔ a ∈ S ∧ is_public a = Ret true)
    ∧ (length l + size (filter (λ a, is_public a = Ret false) S))%nat = size S.
Proof.
  eexists. split; [apply filter_public_eq|]. split.
  - intros a. rewrite elem_of_sorted, list_elem_of_filter, elem_of_elements.
    tauto.
  - rewrite length_sorted. unfold filter at 2, set_filter.
    rewrite size_list_to_set by apply NoDup_filter, NoDup_elements.
    unfold size, set_size. cbn [compose].
    induction (elements S) as [|a l IH]; [done|].
    destruct (is_public_returns a) as [[] Ha].
    + rewrite (filter_cons_True _ a) by done.
      rewrite (filter_cons_False _ a) by (rewrite Ha; done).
      cbn [length]. lia.
    + rewrite (filter_cons_False _ a) by (rewrite Ha; done).
      rewrite (filter_cons_True _ a) by done.
      cbn [length]. lia.
Qed.

(** C5. Filtering the set of the strings that [filter_public] returned
    returns the same list. *)
Theorem filter_public_idempotent (x : gset str) :
  ∃ l : list str,
    filter_public x = Ret l ∧ filter_public (list_to_set l) = Ret l.
Proof.
  eexists. split; [apply filter_public_eq|].
  rewrite filter_public_eq. f_equal.
  set (public := λ ip : str, is_public ip = Ret true).
  set (l := sorted (filter public (elements x))).
  assert (NoDup l) as Hnd
    by apply sorted_NoDup, NoDup_filter, NoDup_elements.
  assert (Forall public l) as Hall.
  { apply Forall_forall. intros a.
    unfold l. rewrite elem_of_sorted, list_elem_of_filter. tauto. }
  rewrite <-(sorted_id l) at 2 by apply sorted_StronglySorted.
  apply sorted_perm_eq.
  rewrite (elements_list_to_set l) by done.
  by rewrite filter_all.
Qed.

(** C6. An address of the shared address space 100.64.0.0/10 (RFC 6598),
    from 100.64.0.0 to 100.127.255.255, such as 100.64.0.1, is classified
    as public: no range check of the classifier covers that block. *)
Theorem shared_address_space_is_public (raw : str) (n : Z) :
  ip_address (strip raw) = Ret (IPv4 n) →
  dotted 100 64 0 0 ≤ n ≤ dotted 100 127 255 255 →
  is_public raw = Ret true.
Proof.
  intros Hp Hn. unfold is_public.
  rewrite (es_ip_privada_parsed _ _ Hp). cbn [outcome mbind result_bind].
  assert (in_network (IPv4 n) shared_address_space = true) as Hs.
  { apply shared_address_space_interval; [|done].
    revert Hn. unfold dotted. change (2 ^ 32) with 4294967296. lia. }
  cbn [is_private is_reserved is_loopback is_link_local is_multicast
       isinstance_IPv6Address andb].
  unfold V4.is_private, V4.is_reserved, V4.is_loopback, V4.is_link_local,
    V4.is_multicast.
  rewrite (shared_not_in_any _ IPv4Constants._private_networks Hs)
    by (vm_compute; reflexivity).
  rewrite !(shared_not_in _ _ Hs) by (vm_compute; reflexivity).
  reflexivity.
Qed.

Lemma shared_address_space_is_public_witness :
  ip_address (strip (py "100.64.0.1")) = Ret (IPv4 (dotted 100 64 0 1))
  ∧ dotted 100 64 0 0 ≤ dotted 100 64 0 1 ≤ dotted 100 127 255 255
  ∧ is_public (py "100.64.0.1") = Ret true.
Proof.
  split; [vm_compute; reflexivity|].
  split; [vm_compute; split; discriminate|].
  apply (shared_address_space_is_public (py "100.64.0.1") (dotted 100 64 0 1)).
  - vm_compute. reflexivity.
  - vm_compute. split; discriminate.
Defined.

(** C7. The classifier does not see surrounding white space:
    [is_public r] is [is_public] of [r] with leading and trailing white
    space removed. *)
Theorem is_public_strip (r : str) : is_public r = is_public (strip r).
Proof.
  unfold is_public.
  destruct (ip_address (strip r)) as [ip|e] eqn:Hp.
  - rewrite (es_ip_privada_parsed r ip Hp).
    rewrite (es_ip_privada_parsed (strip r) ip); [done|].
    by rewrite strip_idemp.
  - rewrite (es_ip_privada_unparsed r e Hp).
    rewrite (es_ip_privada_unparsed (strip r) e); [done|].
    by rewrite strip_idemp.
Qed.


(** C9. The evaluations of section 8 of the specification. *)
Theorem ground_evaluations :
  Forall (λ s, is_public (py s) = Ret false)
    [ "192.168.1.1"; "10.0.0.1"; "172.16.0.1"; "127.0.0.1"; "169.254.1.1";
      "224.0.0.1"; "not-an-ip"; "::1" ]%string
  ∧ Forall (λ s, is_public (py s) = Ret true)
      [ "8.8.8.8"; "1.1.1.1"; "93.184.216.34"; "2001:4860:4860::8888" ]%string
  ∧ filter_public
      {[ py "192.168.1.1"; py "8.8.8.8"; py "1.1.1.1"; py "10.0.0.1" ]}
    = Ret [ py "1.1.1.1"; py "8.8.8.8" ].
Proof.
  split; [|split].
  - repeat constructor; vm_compute; reflexivity.
  - repeat constructor; vm_compute; reflexivity.
  - vm_compute. reflexivity.
Qed.

(** C10. The filter compares and orders the strings as they are written
    and never rewrites them: two different spellings of one address are
    both kept, each as it was given. *)
Theorem filter_keeps_spellings :
  (py "2001:4860:4860::8888" ≠ py "2001:4860:4860:0:0:0:0:8888"
   ∧ ip_address (strip (py "2001:4860:4860::8888"))
     = ip_address (strip (py "2001:4860:4860:0:0:0:0:8888"))
   ∧ filter_public
       {[ py "2001:4860:4860::8888"; py "2001:4860:4860:0:0:0:0:8888" ]}
     = Ret [ py "2001:4860:4860:0:0:0:0:8888"; py "2001:4860:4860::8888" ])
  ∧ (py "8.8.8.8" ≠ py " 8.8.8.8"
     ∧ ip_address (strip (py "8.8.8.8")) = ip_address (strip (py " 8.8.8.8"))
     ∧ filter_public {[ py "8.8.8.8"; py " 8.8.8.8" ]}
       = Ret [ py " 8.8.8.8"; py "8.8.8.8" ]).
Proof.
  repeat split; try (vm_compute; reflexivity); vm_compute; discriminate.
Qed.

End claims.

(** * Further properties *)

Section further.

(** [str_ltb] is the lexicographic order of the code points: [a] is
    smaller than [b] when it is a proper prefix of [b], or when the two
    differ first at a position where [a] has the smaller code point. *)
Lemma str_ltb_lexicographic (a b : str) :
  str_lt a b ↔
    (∃ c t, b = a ++ c :: t)
    ∨ (∃ p x y a' b', a = p ++ x :: a' ∧ b = p ++ y :: b' ∧ (x < y)%N).
Proof.
  unfold str_lt.
  revert b. induction a as [|x a IH]; intros [|y b]; simpl.
  - split; [done|]. intros [(c & t & H)|(p & u & v & a' & b' & H & _)].
    + done.
    + by destruct p.
  - split; [|done]. intros _. left. eauto.
  - split; [done|]. intros [(c & t & H)|(p & u & v & a' & b' & _ & H & _)].
    + done.
    + by destruct p.
  - destruct (N.ltb_spec x y) as [Hxy|Hxy].
    + split; [|done]. intros _. right. by exists [], x, y, a, b.
    + destruct (N.ltb_spec y x) as [Hyx|Hyx].
      * split; [done|].
        intros [(c & t & [= -> _])|(p & u & v & a' & b' & Ha & Hb & Huv)]; [lia|].
        destruct p as [|q p]; simplify_eq/=; lia.
      * assert (x = y) as -> by lia. rewrite IH. split.
        -- intros [(c & t & ->)|(p & u & v & a' & b' & -> & -> & Huv)].
           ++ left. eauto.
           ++ right. by exists (y :: p), u, v, a', b'.
        -- intros [(c & t & [= ->])|(p & u & v & a' & b' & Ha & Hb & Huv)].
           ++ left. eauto.
           ++ destruct p as [|q p]; simplify_eq/=; [lia|].
              right. by exists p, u, v, a', b'.
Qed.

(** The IPv4 ranges the specification names, as intervals of addresses. *)
Theorem named_ranges_v4 (n : Z) :
  0 ≤ n < 2 ^ 32 →
  (V4.is_loopback (IPv4 n) = true ↔ dotted 127 0 0 0 ≤ n ≤ dotted 127 255 255 255)
  ∧ (V4.is_link_local (IPv4 n) = true
     ↔ dotted 169 254 0 0 ≤ n ≤ dotted 169 254 255 255)
  ∧ (V4.is_multicast (IPv4 n) = true
     ↔ dotted 224 0 0 0 ≤ n ≤ dotted 239 255 255 255).
Proof.
  intros Hn.
  unfold V4.is_loopback, V4.is_link_local, V4.is_multicast.
  split; [|split]; network_interval 32.
Qed.

Lemma named_ranges_v4_witness :
  0 ≤ dotted 127 0 0 1 < 2 ^ 32
  ∧ (V4.is_loopback (IPv4 (dotted 127 0 0 1)) = true
     ↔ dotted 127 0 0 0 ≤ dotted 127 0 0 1 ≤ dotted 127 255 255 255).
Proof.
  split; [vm_compute; split; [discriminate|reflexivity]|].
  apply (named_ranges_v4 (dotted 127 0 0 1)).
  vm_compute; split; [discriminate|reflexivity].
Defined.



End further.

(** * The addresses the classifier accepts *)

(** ** The parsers return addresses of their width *)

Section parser_bounds.

Lemma lor_lt_pow2 (a b k : Z) :
  0 ≤ k → 0 ≤ a < 2 ^ k → 0 ≤ b < 2 ^ k → 0 ≤ Z.lor a b < 2 ^ k.
Proof.
  intros Hk Ha Hb. split; [apply Z.lor_nonneg; lia|].
  destruct (Z.eq_dec a 0) as [->|]; [rewrite Z.lor_0_l; lia|].
  destruct (Z.eq_dec b 0) as [->|]; [rewrite Z.lor_0_r; lia|].
  assert (0 ≤ Z.lor a b) by (apply Z.lor_nonneg; lia).
  assert (Z.lor a b ≠ 0) by (intros [? ?]%Z.lor_eq_0_iff; lia).
  apply Z.log2_lt_pow2; [lia|].
  rewrite Z.log2_lor by lia.
  apply Z.max_lub_lt; apply Z.log2_lt_pow2; lia.
Qed.

Lemma shift_lor_lt_pow2 (acc h k j : Z) :
  0 ≤ k → 0 ≤ j → 0 ≤ acc < 2 ^ k → 0 ≤ h < 2 ^ j →
  0 ≤ Z.lor (Z.shiftl acc j) h < 2 ^ (k + j).
Proof.
  intros Hk Hj Hacc Hh.
  assert (0 < 2 ^ j) by (apply Z.pow_pos_nonneg; lia).
  assert (2 ^ j ≤ 2 ^ (k + j)) by (apply Z.pow_le_mono_r; lia).
  apply lor_lt_pow2; [lia| |lia].
  rewrite Z.shiftl_mul_pow2, Z.pow_add_r by lia. nia.
Qed.

Lemma hex_digit_value_bound (c : char) (d : Z) :
  hex_digit_value c = Some d → 0 ≤ d < 16.
Proof.
  unfold hex_digit_value. intros H.
  repeat match type of H with
         | (if ?b then _ else _) = _ =>
             let E := fresh "E" in
             destruct b eqn:E;
             [apply andb_true_iff in E as [?%N.leb_le ?%N.leb_le]|clear E]
         end; simplify_eq; lia.
Qed.

Lemma digits_value_bound (base : Z) (s : str) (acc bound : Z) :
  0 < base →
  forallb (λ c, match hex_digit_value c with
                | Some d => d <? base
                | None => false
                end) s = true →
  0 ≤ acc < bound →
  0 ≤ fold_left (λ acc c, acc * base + default 0 (hex_digit_value c)) s acc
    < bound * base ^ len s.
Proof.
  intros Hbase. revert acc bound.
  induction s as [|c s IH]; intros acc bound Hs Hacc; simpl in *.
  - unfold len. simpl. lia.
  - apply andb_true_iff in Hs as [Hc Hs].
    destruct (hex_digit_value c) as [d|] eqn:Hd; [|done].
    apply hex_digit_value_bound in Hd as Hd'. apply Z.ltb_lt in Hc.
    replace (bound * base ^ len (c :: s)) with ((bound * base) * base ^ len s).
    2:{ unfold len. cbn [length]. rewrite Nat2Z.inj_succ, Z.pow_succ_r by lia. lia. }
    apply IH; [done|]. simpl. nia.
Qed.

Lemma int_bound (s : str) (base n : Z) :
  0 < base → int_ s base = Ret n → 0 ≤ n < base ^ len s.
Proof.
  intros Hbase. unfold int_. destruct (not_ s); [done|].
  match goal with |- context [forallb ?f s] => destruct (forallb f s) eqn:Hs end;
    [|done].
  intros [= <-].
  unfold digits_value.
  pose proof (digits_value_bound base s 0 1 Hbase Hs ltac:(lia)). lia.
Qed.

Lemma parse_octet_bound (s : str) (n : Z) :
  BaseV4._parse_octet s = Ret n → 0 ≤ n ≤ 255.
Proof.
  unfold BaseV4._parse_octet.
  destruct (not_ s); [done|]. destruct (negb _); [done|].
  destruct (3 <? _); [done|].
  intros (lz & _ & H)%bind_Ret_inv. destruct lz; [done|].
  apply bind_Ret_inv in H as (m & Hm & H).
  apply int_bound in Hm; [|lia].
  destruct (Z.ltb_spec 255 m); [done|]. injection H as <-. lia.
Qed.

Lemma map_Ret_inv {A B} (f : A → result B) (l : list A) (ys : list B) :
  map_ f l = Ret ys → Forall2 (λ x y, f x = Ret y) l ys.
Proof.
  revert ys. induction l as [|x l IH]; intros ys; simpl.
  - intros [= <-]. constructor.
  - intros (y & Hy & H)%bind_Ret_inv.
    apply bind_Ret_inv in H as (ys' & Hys & [= <-]).
    constructor; [done|by apply IH].
Qed.

Lemma int_from_bytes_bound (bs : list Z) (acc k : Z) :
  0 ≤ k → Forall (λ b, 0 ≤ b ≤ 255) bs → 0 ≤ acc < 2 ^ k →
  0 ≤ fold_left (λ acc b, Z.lor (Z.shiftl acc 8) b) bs acc < 2 ^ (k + 8 * len bs).
Proof.
  intros Hk Hbs. revert acc k Hk.
  induction Hbs as [|b bs Hb _ IH]; intros acc k Hk Hacc; simpl.
  - unfold len. simpl. by rewrite Z.add_0_r.
  - replace (k + 8 * len (b :: bs)) with ((k + 8) + 8 * len bs)
      by (unfold len; cbn [length]; lia).
    apply IH; [lia|]. apply shift_lor_lt_pow2; lia.
Qed.

(** An IPv4 address that parsed is a 32-bit number. *)
Lemma IPv4Address_bound (s : str) (a : ip_object) :
  IPv4Address s = Ret a → ∃ n, a = IPv4 n ∧ 0 ≤ n < 2 ^ 32.
Proof.
  unfold IPv4Address. destruct (contains _ s); [done|].
  intros (n & Hn & [= <-])%bind_Ret_inv. exists n. split; [done|].
  revert Hn. unfold BaseV4._ip_int_from_string.
  destruct (not_ s); [done|]. cbv zeta.
  destruct (Z.eqb_spec (len (split (ord ".") s)) 4) as [Hlen|]; [|done].
  cbn [negb]. unfold try_except.
  destruct (map_ _ _) as [bs|e] eqn:Hbs; cbn [mbind result_bind].
  2:{ by destruct (is_ValueError e). }
  intros [= <-]. apply map_Ret_inv in Hbs.
  assert (len bs = 4) as Hlbs.
  { rewrite <-Hlen. unfold len. f_equal. symmetry. by eapply Forall2_length. }
  assert (Forall (λ b, 0 ≤ b ≤ 255) bs) as Hall.
  { apply Forall_forall. intros b Hb.
    apply (Forall2_Forall_r _ (λ b, 0 ≤ b ≤ 255)) in Hbs; [by eapply Forall_forall in Hbs|].
    apply Forall_forall. intros x _ y. apply parse_octet_bound. }
  pose proof (int_from_bytes_bound bs 0 0 ltac:(lia) Hall ltac:(simpl; lia)) as Hb.
  rewrite Hlbs in Hb. exact Hb.
Qed.

Lemma parse_hextet_bound (s : str) (h : Z) :
  BaseV6._parse_hextet s = Ret h → 0 ≤ h < 2 ^ 16.
Proof.
  unfold BaseV6._parse_hextet. destruct (negb _); [done|].
  destruct (Z.ltb_spec 4 (len s)); [done|].
  intros Hh%int_bound; [|lia].
  assert (0 ≤ len s) by (unfold len; lia).
  pose proof (Z.pow_le_mono_r 16 (len s) 4 ltac:(lia) ltac:(lia)).
  change (16 ^ 4) with (2 ^ 16) in *. lia.
Qed.

Lemma read_hextets_bound (parts : list str) (l : list Z) (acc k r : Z) :
  0 ≤ k → 0 ≤ acc < 2 ^ k →
  for_ l acc (BaseV6.read_hextet parts) = Ret r →
  0 ≤ r < 2 ^ (k + 16 * len l).
Proof.
  revert acc k. induction l as [|i l IH]; intros acc k Hk Hacc; simpl.
  - intros [= <-]. unfold len. simpl. by rewrite Z.add_0_r.
  - intros (acc' & Hacc' & Hr)%bind_Ret_inv.
    replace (k + 16 * len (i :: l)) with ((k + 16) + 16 * len l)
      by (unfold len; cbn [length]; lia).
    apply (IH acc'); [lia| |done].
    unfold BaseV6.read_hextet in Hacc'. cbv zeta in Hacc'.
    apply bind_Ret_inv in Hacc' as (part & _ & Hacc').
    apply bind_Ret_inv in Hacc' as (h & Hh%parse_hextet_bound & [= <-]).
    by apply shift_lor_lt_pow2.
Qed.

Lemma len_range (a b : Z) : a ≤ b → len (range a b) = b - a.
Proof. intros H. unfold len, range. rewrite length_seqZ. lia. Qed.

Lemma v6_ip_int_bound (s : str) (n : Z) :
  BaseV6._ip_int_from_string s = Ret n → 0 ≤ n < 2 ^ 128.
Proof.
  unfold BaseV6._ip_int_from_string.
  destruct (not_ s); [done|].
  generalize (split (ord ":") s). intros parts0. cbv zeta.
  destruct (Z.ltb_spec (len parts0) 3) as [|Hlen0]; [done|].
  intros (last_part & _ & H)%bind_Ret_inv.
  apply bind_Ret_inv in H as (parts & Hparts & H).
  assert (3 ≤ len parts) as Hlen.
  { destruct (contains _ last_part).
    - apply bind_Ret_inv in Hparts as (m & _ & [= <-]).
      rewrite len_removelast_app2; len_lia.
    - injection Hparts as <-. done. }
  clear Hparts Hlen0 last_part parts0.
  destruct (Z.ltb_spec (BaseV6._HEXTET_COUNT + 1) (len parts)); [done|].
  apply bind_Ret_inv in H as (sk & Hsk & H).
  assert (∀ k, sk = Some k → 1 ≤ k < len parts - 1) as Hk.
  { revert Hsk.
    match goal with
    | |- for_ ?l ?acc ?body = _ → _ =>
        apply (raises_only_for (λ _, true)
                 (λ sk : option Z, ∀ k, sk = Some k → 1 ≤ k < len parts - 1)
                 l acc body)
    end; [done|done|].
    intros sk0 i sk' Hi%elem_of_range Hsk0 Hbody k ->.
    apply bind_Ret_inv in Hbody as (part & _ & Hbody).
    destruct (not_ part).
    - destruct sk0; [done|]. injection Hbody as <-. len_lia.
    - injection Hbody as ->. by apply Hsk0. }
  clear Hsk.
  apply bind_Ret_inv in H as ([[hi lo] skipped] & Htriple & H).
  assert (0 ≤ hi ∧ 0 ≤ lo ∧ 0 ≤ skipped ∧ hi + lo + skipped = 8)
    as (Hhi & Hlo & Hskipped & Hsum).
  { destruct sk as [k|].
    - specialize (Hk k eq_refl).
      apply bind_Ret_inv in Htriple as (first & _ & Htriple).
      apply bind_Ret_inv in Htriple as (hi' & Hhi & Htriple).
      apply bind_Ret_inv in Htriple as (lp & _ & Htriple).
      apply bind_Ret_inv in Htriple as (lo' & Hlo & Htriple).
      cbv zeta in *.
      destruct (Z.ltb_spec (BaseV6._HEXTET_COUNT - (hi' + lo')) 1); [done|].
      injection Htriple as <- <- <-.
      destruct (not_ first), (not_ lp);
        repeat match goal with
               | H : (if negb ?b then _ else _) = _ |- _ => destruct b; simpl in H
               end;
        simplify_eq; len_lia.
    - destruct (Z.eqb_spec (len parts) BaseV6._HEXTET_COUNT); [|done].
      cbn [negb] in Htriple.
      apply bind_Ret_inv in Htriple as (first & _ & Htriple).
      destruct (not_ first); [done|].
      apply bind_Ret_inv in Htriple as (lp & _ & Htriple).
      destruct (not_ lp); [done|]. injection Htriple as <- <- <-. len_lia. }
  clear Htriple Hk sk.
  unfold try_except in H.
  match type of H with
  | match ?body with _ => _ end = _ => destruct body as [r|e] eqn:Hbody
  end.
  2:{ by destruct (is_ValueError e). }
  injection H as ->.
  apply bind_Ret_inv in Hbody as (ip_int & Hhigh & Hlow). cbv zeta in Hlow.
  apply (read_hextets_bound _ _ _ 0) in Hhigh; [|lia|simpl; lia].
  rewrite len_range in Hhigh by lia.
  apply (read_hextets_bound _ _ _ (16 * hi + 16 * skipped)) in Hlow; [|lia|].
  - rewrite len_range in Hlow by lia.
    replace (16 * hi + 16 * skipped + 16 * (0 - - lo)) with 128 in Hlow by lia.
    done.
  - rewrite Z.shiftl_mul_pow2, Z.pow_add_r by lia.
    assert (0 < 2 ^ (16 * skipped)) by (apply Z.pow_pos_nonneg; lia).
    replace (0 + 16 * (hi - 0)) with (16 * hi) in Hhigh by lia. nia.
Qed.

(** An IPv6 address that parsed is a 128-bit number. *)
Lemma IPv6Address_bound (s : str) (a : ip_object) :
  IPv6Address s = Ret a → ∃ n scope, a = IPv6 n scope ∧ 0 ≤ n < 2 ^ 128.
Proof.
  unfold IPv6Address. destruct (contains _ s); [done|].
  intros ([addr scope] & _ & H)%bind_Ret_inv.
  apply bind_Ret_inv in H as (n & Hn%v6_ip_int_bound & [= <-]). eauto.
Qed.

(** What [ip_address] returns came from one of the two constructors. *)
Lemma ip_address_Ret (s : str) (a : ip_object) :
  ip_address s = Ret a →
  IPv4Address s = Ret a
  ∨ (∃ e, IPv4Address s = Raise e) ∧ IPv6Address s = Ret a.
Proof.
  unfold ip_address, try_except.
  destruct (IPv4Address s) as [a4|e4]; [intros [= <-]; by left|].
  destruct (is_Address_or_Netmask_error e4); [|done].
  destruct (IPv6Address s) as [a6|e6]; [intros [= <-]; right; eauto|].
  by destruct (is_Address_or_Netmask_error e6).
Qed.

(** The addresses [ip_address] returns: 32 bits for IPv4, 128 bits for
    IPv6. *)
Lemma ip_address_bound (s : str) (a : ip_object) :
  ip_address s = Ret a →
  match a with
  | IPv4 n => 0 ≤ n < 2 ^ 32
  | IPv6 n _ => 0 ≤ n < 2 ^ 128
  end.
Proof.
  intros [H|[_ H]]%ip_address_Ret.
  - apply IPv4Address_bound in H as (n & -> & Hn). done.
  - apply IPv6Address_bound in H as (n & scope & -> & Hn). done.
Qed.

End parser_bounds.

(** ** The checks as blocks of addresses *)

Ltac interval_side :=
  first [ assumption
        | (vm_compute; reflexivity)
        | (vm_compute; split; discriminate)
        | (cbn [_ip]; lia) ].

Ltac to_intervals w :=
  repeat match goal with
    | |- context [in_network ?ip ?net = true] =>
        rewrite (in_network_interval w ip net) by interval_side
    end.

Lemma v4_checks_intervals (n : Z) :
  0 ≤ n < 2 ^ 32 →
  is_private (IPv4 n) || is_reserved (IPv4 n) || is_loopback (IPv4 n)
  || is_link_local (IPv4 n) || is_multicast (IPv4 n) = true
  ↔ ipv4_non_public n.
Proof.
  intros Hn.
  cbn [is_private is_reserved is_loopback is_link_local is_multicast].
  unfold V4.is_private, V4.is_reserved, V4.is_loopback, V4.is_link_local,
    V4.is_multicast.
  unfold IPv4Constants._private_networks,
    IPv4Constants._private_networks_exceptions,
    IPv4Constants._reserved_network, IPv4Constants._loopback_network,
    IPv4Constants._linklocal_network, IPv4Constants._multicast_network.
  cbn [existsb forallb].
  rewrite !orb_true_iff, !andb_true_iff, !orb_true_iff, !negb_true_iff,
    <-!not_true_iff_false.
  to_intervals 32.
  cbn [network_address prefixlen _ip].
  unfold ipv4_non_public. eval_bounds.
  lia.
Qed.

Ltac eval_hextets :=
  repeat match goal with
    | |- context [hextets ?a ?b ?c ?d ?e ?f ?g ?h] =>
        let v := eval vm_compute in (hextets a b c d e f g h) in
        change (hextets a b c d e f g h) with v
    end.

(** For an IPv4-mapped address [is_private] asks the embedded IPv4
    address; such an address is reserved (it is in ::/8) whatever the
    answer. *)
Lemma v6_private_or_reserved (n : Z) (scope : option str) :
  0 ≤ n < 2 ^ 128 →
  V6.is_private (IPv6 n scope) || V6.is_reserved (IPv6 n scope)
  = existsb (λ net, in_network (IPv6 n scope) net)
      IPv6Constants._private_networks
    && forallb (λ net, negb (in_network (IPv6 n scope) net))
         IPv6Constants._private_networks_exceptions
    || V6.is_reserved (IPv6 n scope).
Proof.
  intros Hn. unfold V6.is_private, V6.ipv4_mapped. cbn [_ip].
  destruct (Z.eqb_spec (Z.shiftr n 32) 65535) as [Hm|]; [|done].
  cbn [negb].
  assert (V6.is_reserved (IPv6 n scope) = true) as ->;
    [|by rewrite !orb_true_r].
  unfold V6.is_reserved, IPv6Constants._reserved_networks. cbn [existsb].
  apply orb_true_iff. left.
  to_intervals 128.
  cbn [network_address prefixlen _ip]. eval_bounds.
  rewrite Z.shiftr_div_pow2 in Hm by lia.
  pose proof (Z.div_mod n (2 ^ 32) ltac:(lia)) as Hd.
  pose proof (Z.mod_pos_bound n (2 ^ 32) ltac:(lia)) as Hb.
  change (2 ^ 32) with 4294967296 in *. lia.
Qed.

Lemma v6_checks_intervals (n : Z) (scope : option str) :
  0 ≤ n < 2 ^ 128 →
  is_private (IPv6 n scope) || is_reserved (IPv6 n scope)
  || is_loopback (IPv6 n scope) || is_link_local (IPv6 n scope)
  || is_multicast (IPv6 n scope) || V6.is_site_local (IPv6 n scope) = false
  ↔ ipv6_public n.
Proof.
  intros Hn.
  rewrite <-not_true_iff_false.
  cbn [is_private is_reserved is_loopback is_link_local is_multicast].
  rewrite v6_private_or_reserved by done.
  unfold V6.is_reserved, V6.is_loopback, V6.is_link_local,
    V6.is_multicast, V6.is_site_local.
  unfold IPv6Constants._private_networks,
    IPv6Constants._private_networks_exceptions,
    IPv6Constants._reserved_networks, IPv6Constants._linklocal_network,
    IPv6Constants._multicast_network, IPv6Constants._sitelocal_network.
  cbn [existsb forallb]. rewrite !orb_false_r, !andb_true_r.
  rewrite !orb_true_iff, !andb_true_iff, !orb_true_iff, !negb_true_iff,
    <-!not_true_iff_false.
  cbn [_ip]. rewrite Z.eqb_eq.
  to_intervals 128.
  cbn [network_address prefixlen _ip].
  unfold ipv6_public. eval_bounds. eval_hextets.
  lia.
Qed.

Lemma mapped_is_reserved (n : Z) (scope : option str) (v4 : ip_object) :
  0 ≤ n < 2 ^ 128 →
  V6.ipv4_mapped (IPv6 n scope) = Some v4 →
  V6.is_reserved (IPv6 n scope) = true.
Proof.
  intros Hn. unfold V6.ipv4_mapped. cbn [_ip].
  destruct (Z.eqb_spec (Z.shiftr n 32) 65535) as [Hm|]; [|done]. intros _.
  unfold V6.is_reserved, IPv6Constants._reserved_networks. cbn [existsb].
  apply orb_true_iff. left.
  to_intervals 128.
  cbn [network_address prefixlen _ip]. eval_bounds.
  rewrite Z.shiftr_div_pow2 in Hm by lia.
  pose proof (Z.div_mod n (2 ^ 32) ltac:(lia)) as Hd.
  pose proof (Z.mod_pos_bound n (2 ^ 32) ltac:(lia)) as Hb.
  change (2 ^ 32) with 4294967296 in *. lia.
Qed.

Section more.

(** X4. For a string that parses as an IPv4 address, [is_public] returns
    false exactly on the blocks 0.0.0.0/8, 10.0.0.0/8, 127.0.0.0/8,
    169.254.0.0/16, 172.16.0.0/12, 192.0.0.0/24 (but for 192.0.0.9 and
    192.0.0.10), 192.0.2.0/24, 192.168.0.0/16, 198.18.0.0/15,
    198.51.100.0/24, 203.0.113.0/24 and 224.0.0.0-255.255.255.255, and
    true on every other address. *)
Theorem ipv4_public_addresses (raw : str) (n : Z) :
  ip_address (strip raw) = Ret (IPv4 n) →
  (is_public raw = Ret false ↔ ipv4_non_public n)
  ∧ (is_public raw = Ret true ↔ ¬ ipv4_non_public n).
Proof.
  intros Hp. pose proof (ip_address_bound _ _ Hp) as Hn. cbn in Hn.
  unfold is_public. rewrite (es_ip_privada_parsed _ _ Hp).
  cbn [outcome mbind result_bind isinstance_IPv6Address andb].
  rewrite orb_false_r, <-(v4_checks_intervals n Hn).
  destruct (_ || _); cbn [negb]; intuition congruence.
Qed.

Lemma ipv4_public_addresses_witness :
  ip_address (strip (py "192.0.0.9")) = Ret (IPv4 (dotted 192 0 0 9))
  ∧ (is_public (py "192.0.0.9") = Ret true
     ↔ ¬ ipv4_non_public (dotted 192 0 0 9)).
Proof.
  split; [vm_compute; reflexivity|].
  apply (ipv4_public_addresses (py "192.0.0.9") (dotted 192 0 0 9)).
  vm_compute. reflexivity.
Defined.





End more.

(** * Zones, slashes and the lines printed *)

Section strings_more.

Lemma contains_app (c : char) (a b : str) :
  contains c (a ++ b) = contains c a || contains c b.
Proof. unfold contains. apply existsb_app. Qed.

Lemma contains_elem_of (c : char) (s : str) :
  contains c s = true ↔ c ∈ s.
Proof.
  unfold contains. rewrite existsb_exists. split.
  - intros (x & Hx%list_elem_of_In & ->%N.eqb_eq). done.
  - intros Hc. exists c. split; [by apply list_elem_of_In|apply N.eqb_refl].
Qed.

Lemma partition_found (sep : char) (a z : str) :
  contains sep a = false → partition sep (a ++ sep :: z) = (a, true, z).
Proof.
  induction a as [|c a IH]; simpl.
  - intros _. by rewrite N.eqb_refl.
  - intros [Hc Ha]%orb_false_iff. rewrite N.eqb_sym, Hc, IH by done. done.
Qed.

Lemma partition_not_found (sep : char) (s a b : str) :
  partition sep s = (a, false, b) → a = s ∧ contains sep s = false.
Proof.
  revert a b. induction s as [|c s IH]; intros a b; simpl.
  - by intros [= <- <-].
  - destruct (N.eqb_spec c sep) as [->|Hne]; [done|].
    destruct (partition sep s) as [[a' f] b'] eqn:Hp. intros [= <- -> <-].
    destruct (IH a' b' eq_refl) as [-> Hs]. split; [done|].
    rewrite Hs, orb_false_r. by apply N.eqb_neq.
Qed.

(** A character other than the separator stays in one of the pieces. *)
Lemma split_elem (sep c : char) (s : str) :
  c ∈ s → c ≠ sep → ∃ piece, piece ∈ split sep s ∧ c ∈ piece.
Proof.
  intros Hc Hne. induction s as [|d s IH]; [by apply elem_of_nil in Hc|].
  simpl. destruct (N.eqb_spec d sep) as [->|Hd].
  - apply elem_of_cons in Hc as [->|Hc]; [done|].
    destruct (IH Hc) as (p & Hp & Hcp). exists p. split; [by right|done].
  - destruct (split sep s) as [|w ws] eqn:Hs.
    + exists [d]. split; [left|].
      apply elem_of_cons in Hc as [->|Hc]; [left|].
      destruct (IH Hc) as (p & Hp & _). by apply elem_of_nil in Hp.
    + apply elem_of_cons in Hc as [->|Hc].
      * exists (d :: w). split; left.
      * destruct (IH Hc) as (p & Hp & Hcp).
        apply elem_of_cons in Hp as [->|Hp].
        -- exists (d :: w). split; [left|by right].
        -- exists p. split; [by right|done].
Qed.

Lemma strip_fixed (s : str) :
  no_leading_space s → no_leading_space (reverse s) → strip s = s.
Proof.
  intros Hl Hr. unfold strip, rstrip.
  by rewrite (lstrip_fixed s), (lstrip_fixed (reverse s)), reverse_involutive.
Qed.

Lemma strip_no_leading_space (s : str) : no_leading_space (strip s).
Proof. apply rstrip_no_leading_space, lstrip_no_leading_space. Qed.

End strings_more.

Section rejects.

(** A string with a character that is neither a decimal digit nor a dot
    is not an IPv4 address. *)
Lemma IPv4Address_rejects (c : char) (s : str) :
  c ∈ s → is_decimal_digit c = false → c ≠ ord "." →
  IPv4Address s = Raise AddressValueError.
Proof.
  intros Hc Hd Hdot.
  destruct (IPv4Address s) as [a|e] eqn:Hs.
  2:{ pose proof (IPv4Address_raises s e Hs). by destruct e. }
  exfalso. revert Hs. unfold IPv4Address.
  destruct (contains _ s); [done|].
  intros (n & Hn & _)%bind_Ret_inv. revert Hn.
  unfold BaseV4._ip_int_from_string.
  destruct (not_ s); [done|]. cbv zeta. destruct (negb _); [done|].
  unfold try_except.
  destruct (map_ _ _) as [bs|e] eqn:Hbs; cbn [mbind result_bind];
    [|by destruct (is_ValueError e)].
  intros _. apply map_Ret_inv in Hbs.
  destruct (split_elem (ord ".") c s Hc Hdot) as (piece & Hpiece & Hcp).
  apply (Forall2_Forall_l _ (λ o, ∃ v, BaseV4._parse_octet o = Ret v)) in Hbs.
  2:{ apply Forall_forall. intros y _ x Hx. eauto. }
  eapply Forall_forall in Hbs as [v Hv]; [|exact Hpiece].
  revert Hv. unfold BaseV4._parse_octet.
  destruct (not_ piece); [done|].
  unfold isascii_and_isdigit.
  destruct (forallb is_decimal_digit piece) eqn:Hall.
  - eapply forallb_forall in Hall; [|by apply list_elem_of_In]. congruence.
  - by rewrite andb_false_r.
Qed.

End rejects.

Section classifier_more.

(** The range checks do not look at the zone of an IPv6 address. *)
Lemma checks_ignore_zone (n : Z) (s1 s2 : option str) :
  is_private (IPv6 n s1) || is_reserved (IPv6 n s1) || is_loopback (IPv6 n s1)
  || is_link_local (IPv6 n s1) || is_multicast (IPv6 n s1)
  || isinstance_IPv6Address (IPv6 n s1) && V6.is_site_local (IPv6 n s1)
  = is_private (IPv6 n s2) || is_reserved (IPv6 n s2) || is_loopback (IPv6 n s2)
    || is_link_local (IPv6 n s2) || is_multicast (IPv6 n s2)
    || isinstance_IPv6Address (IPv6 n s2) && V6.is_site_local (IPv6 n s2).
Proof. reflexivity. Qed.

(** X7. An IPv6 address followed by [%] and a zone (not empty, without
    [%] or [/], not ending in white space) parses to the same address
    with that zone, and is classified like the address alone. *)
Theorem zone_is_ignored (addr zone : str) (n : Z) :
  strip addr = addr →
  ip_address addr = Ret (IPv6 n None) →
  zone ≠ [] →
  contains (ord "%") zone = false →
  contains (ord "/") zone = false →
  no_leading_space (reverse zone) →
  ip_address (strip (addr ++ ord "%" :: zone)) = Ret (IPv6 n (Some zone))
  ∧ is_public (addr ++ ord "%" :: zone) = is_public addr.
Proof.
  intros Hstrip Haddr Hzone Hpct Hslash Hend.
  assert (strip (addr ++ ord "%" :: zone) = addr ++ ord "%" :: zone) as Hs.
  { apply strip_fixed.
    - pose proof (strip_no_leading_space addr) as Hl. rewrite Hstrip in Hl.
      destruct addr; [|done]. vm_compute. done.
    - rewrite reverse_app, reverse_cons.
      destruct (reverse zone) as [|c r] eqn:Hr; [|done].
      apply (f_equal reverse) in Hr. rewrite reverse_involutive in Hr. done. }
  destruct (ip_address_Ret _ _ Haddr) as [H4|[_ H6]].
  { apply IPv4Address_bound in H4 as (m & [=] & _). }
  revert H6. unfold IPv6Address.
  destruct (contains (ord "/") addr) eqn:Hsl; [done|].
  intros ([a0 sc] & Hsc & H6)%bind_Ret_inv.
  apply bind_Ret_inv in H6 as (n' & Hn & [= -> ->]).
  revert Hsc. unfold BaseV6._split_scope_id.
  destruct (partition (ord "%") addr) as [[a1 found] z1] eqn:Hpart.
  destruct found; cbn [negb].
  { destruct (_ || _); [done|]. done. }
  intros [= ->]. apply partition_not_found in Hpart as [-> Hnopct].
  assert (ip_address (addr ++ ord "%" :: zone) = Ret (IPv6 n (Some zone))) as Hp.
  { unfold ip_address.
    rewrite (IPv4Address_rejects (ord "%") (addr ++ ord "%" :: zone));
      [|apply elem_of_app; right; left|done|done].
    cbn [try_except is_Address_or_Netmask_error].
    unfold IPv6Address.
    rewrite contains_app. cbn [contains existsb]. fold (contains (ord "/") zone).
    rewrite Hsl, Hslash. cbn [orb N.eqb ord].
    replace (N_of_ascii "/" =? N_of_ascii "%")%N with false by done.
    cbn [orb]. unfold BaseV6._split_scope_id.
    rewrite partition_found by done. cbn [negb].
    destruct zone as [|z zone]; [done|]. cbn [not_ orb].
    rewrite Hpct. cbn [mbind result_bind]. rewrite Hn. done. }
  split; [by rewrite Hs|].
  unfold is_public.
  rewrite (es_ip_privada_parsed (addr ++ ord "%" :: zone) (IPv6 n (Some zone)))
    by (by rewrite Hs).
  rewrite (es_ip_privada_parsed addr (IPv6 n None)) by (by rewrite Hstrip).
  cbn [outcome]. by rewrite (checks_ignore_zone n (Some zone) None).
Qed.

Lemma zone_is_ignored_witness :
  is_public (py "2001:4860:4860::8888%any text, even this")
  = is_public (py "2001:4860:4860::8888")
  ∧ is_public (py "2001:4860:4860::8888") = Ret true.
Proof.
  split; [|vm_compute; reflexivity].
  apply (zone_is_ignored (py "2001:4860:4860::8888")
           (py "any text, even this")
           (hextets 0x2001 0x4860 0x4860 0 0 0 0 0x8888));
    try (vm_compute; reflexivity); vm_compute; done.
Defined.

(** X8. A string that, once trimmed, is empty or holds a slash is
    classified as not public: a network in CIDR notation is not an
    address. *)
Theorem blank_or_slash_not_public (raw : str) :
  strip raw = [] ∨ contains (ord "/") (strip raw) = true →
  is_public raw = Ret false.
Proof.
  intros H.
  assert (ip_address (strip raw) = Raise ValueError) as Hp.
  { unfold ip_address, IPv4Address, IPv6Address.
    destruct H as [-> | ->]; [|done]. vm_compute. done. }
  unfold is_public. by rewrite (es_ip_privada_unparsed _ _ Hp).
Qed.

Lemma blank_or_slash_not_public_witness :
  contains (ord "/") (strip (py "8.8.8.8/32")) = true
  ∧ is_public (py "8.8.8.8") = Ret true
  ∧ is_public (py "8.8.8.8/32") = Ret false.
Proof.
  split; [vm_compute; reflexivity|]. split; [vm_compute; reflexivity|].
  apply (blank_or_slash_not_public (py "8.8.8.8/32")).
  right. vm_compute. reflexivity.
Defined.

End classifier_more.

Section trace.

Lemma is_accept_line_publica (ip : str) : is_accept_line (msg_publica ip) = true.
Proof. done. Qed.

Lemma is_accept_line_privada (ip : str) : is_accept_line (msg_privada ip) = false.
Proof. done. Qed.

Lemma is_accept_line_invalida (ip : str) : is_accept_line (msg_invalida ip) = false.
Proof. done. Qed.

Lemma es_ip_privada_stdout (ip : str) :
  Forall (λ line, is_accept_line line = false) (stdout (es_ip_privada ip)).
Proof.
  destruct (ip_address (strip ip)) as [a|e] eqn:Hp.
  - rewrite (es_ip_privada_parsed _ _ Hp). constructor.
  - rewrite (es_ip_privada_unparsed _ _ Hp). by repeat constructor.
Qed.

Lemma filtrar_loop_stdout (ips ips_publicas : list str) :
  stdout (filtrar_loop ips ips_publicas) = concat (lines_for <$> ips).
Proof.
  revert ips_publicas. induction ips as [|ip ips IH]; intros acc; [done|].
  cbn [filtrar_loop fmap list_fmap concat]. unfold lines_for at 1.
  destruct (es_ip_privada_returns ip) as [privada Hp].
  rewrite (es_ip_privada_is_public _ _ Hp).
  unfold mbind at 1, io_bind. rewrite Hp. cbn [stdout].
  destruct privada; cbn [negb];
    unfold mbind at 1, io_bind; cbn [outcome stdout print];
    rewrite IH, <-!app_assoc; done.
Qed.


End trace.

(** * The program *)

Section steps.

Lemma touched_refl (d : gmap str node) : touched d d.
Proof. intros p. by left. Qed.

Lemma touched_trans (d d' d'' : gmap str node) :
  touched d d' → touched d' d'' → touched d d''.
Proof.
  intros H1 H2 p. destruct (H2 p) as [H|[(-> & Hn & Hd)|H]].
  - rewrite H. apply H1.
  - destruct (H1 (u "output")) as [H|[(_ & Hn' & Hd')|(now & n & _ & Hd' & _)]].
    + right; left. by rewrite <-H.
    + congruence.
    + congruence.
  - by right; right.
Qed.

Lemma advances_refl (w : world) : advances w w.
Proof. split; [done|apply touched_refl]. Qed.

Lemma advances_trans (w w' w'' : world) : advances w w' → advances w' w'' → advances w w''.
Proof.
  intros [H1 T1] [H2 T2]. split; [lia|by eapply touched_trans].
Qed.

Lemma consumes_advances (w w' : world) : consumes w w' → advances w w'.
Proof. intros [H T]. split; [lia|done]. Qed.

Lemma consumes_advances_trans (w w' w'' : world) : consumes w w' → advances w' w'' → consumes w w''.
Proof.
  intros [H1 T1] [H2 T2]. split; [lia|by eapply touched_trans].
Qed.

Lemma advances_consumes_trans (w w' w'' : world) : advances w w' → consumes w' w'' → consumes w w''.
Proof.
  intros [H1 T1] [H2 T2]. split; [lia|by eapply touched_trans].
Qed.

Lemma advances_show (lines : list str) (w : world) : advances w (show lines w).
Proof. split; [reflexivity|apply touched_refl]. Qed.

Lemma bind_run {A B} (m : prog A) (f : A → prog B) (w : world) :
  (m ≫= f) w =
    match m w with
    | (Done a, w') => f a w'
    | (Failed e, w') => (Failed e, w')
    end.
Proof. done. Qed.

Lemma triple_ret {A} (a : A) (Q : A → Prop) : Q a → triple advances (mret a) Q.
Proof. intros HQ w. split; [done|apply advances_refl]. Qed.

Lemma triple_raise {A} (e : error) (Q : A → Prop) :
  e ≠ OutOfFuel → triple advances (raise e) Q.
Proof. intros He w. split; [done|apply advances_refl]. Qed.

Lemma triple_bind {A B} (R1 R2 R3 : world → world → Prop)
    (m : prog A) (f : A → prog B) (Q : A → Prop) (Q' : B → Prop) :
  (∀ w w', R1 w w' → advances w w') →
  (∀ w w' w'', R1 w w' → R2 w' w'' → R3 w w'') →
  triple R1 m Q → (∀ a, Q a → triple R2 (f a) Q') →
  triple R3 (m ≫= f) Q'.
Proof.
  intros Hok Htrans Hm Hf w. rewrite bind_run.
  specialize (Hm w). destruct (m w) as [[a|e] w']; [|done].
  destruct Hm as [Ha HR]. specialize (Hf a Ha w').
  destruct (f a w') as [[b|e] w'']; destruct Hf as [Hb HR'].
  - split; [done|by eapply Htrans].
  - split; [done|]. eapply advances_trans; [by apply Hok|done].
Qed.

Lemma triple_seq {A B} (m : prog A) (f : A → prog B) (Q : A → Prop)
    (Q' : B → Prop) :
  triple advances m Q → (∀ a, Q a → triple advances (f a) Q') → triple advances (m ≫= f) Q'.
Proof. apply triple_bind; [done|apply advances_trans]. Qed.

Lemma triple_after {A B} (m : prog A) (f : A → prog B) (Q : A → Prop)
    (Q' : B → Prop) :
  triple consumes m Q → (∀ a, Q a → triple advances (f a) Q') →
  triple consumes (m ≫= f) Q'.
Proof. apply triple_bind; [apply consumes_advances|apply consumes_advances_trans]. Qed.

Lemma triple_before {A B} (m : prog A) (f : A → prog B) (Q : A → Prop)
    (Q' : B → Prop) :
  triple advances m Q → (∀ a, Q a → triple consumes (f a) Q') →
  triple consumes (m ≫= f) Q'.
Proof. apply triple_bind; [done|apply advances_consumes_trans]. Qed.

Lemma triple_relax {A} (m : prog A) (Q Q' : A → Prop) :
  triple consumes m Q → (∀ a, Q a → Q' a) → triple advances m Q'.
Proof.
  intros Hm HQ w. specialize (Hm w). destruct (m w) as [[a|e] w']; [|done].
  destruct Hm. split; [auto|by apply consumes_advances].
Qed.

Lemma triple_mono {A} (R : world → world → Prop) (m : prog A) (Q Q' : A → Prop) :
  triple R m Q → (∀ a, Q a → Q' a) → triple R m Q'.
Proof.
  intros Hm HQ w. specialize (Hm w). destruct (m w) as [[a|e] w']; [|done].
  destruct Hm. split; auto.
Qed.

Lemma triple_run_io {A} (m : io A) (Q : A → Prop) :
  (∀ a, outcome m = Ret a → Q a) → triple advances (run_io m) Q.
Proof.
  intros HQ w. unfold run_io. destruct (outcome m) as [a|e].
  - split; [auto|apply advances_show].
  - split; [done|apply advances_show].
Qed.

Lemma triple_say (line : str) : triple advances (say line) (λ _, True).
Proof. by apply triple_run_io. Qed.

Lemma triple_input (prompt : str) : triple consumes (input prompt) (λ _, True).
Proof.
  intros [k s d c t]. unfold input. cbn [keyboard show screen disk clock ticks].
  destruct k as [|[text|] rest]; cbn [keyboard disk length].
  - split; [done|]. split; [cbn; lia|apply touched_refl].
  - split; [done|]. split; [cbn; lia|apply touched_refl].
  - split; [done|]. split; [cbn; lia|apply touched_refl].
Qed.

Lemma triple_os_path_exists (path : str) :
  triple advances (os_path_exists path) (λ _, True).
Proof. intros w. split; [done|apply advances_refl]. Qed.

End steps.

Section collectors.

Variable lower : str → str.
Variable message : error → str.

Lemma collected_nil : collected [] = ∅.
Proof. done. Qed.

Lemma collected_cons (text : str) (texts : list str) :
  collected (text :: texts) =
    if negb (not_ (strip text)) then {[ strip text ]} ∪ collected texts
    else collected texts.
Proof.
  unfold collected. rewrite fmap_cons.
  destruct (strip text) as [|c s] eqn:Hs; cbn [not_ negb].
  - by rewrite filter_cons_False by (intros H; by apply H).
  - by rewrite filter_cons_True by done.
Qed.

Lemma collected_app (l1 l2 : list str) :
  collected (l1 ++ l2) = collected l1 ∪ collected l2.
Proof.
  unfold collected. rewrite fmap_app, filter_app, list_to_set_app_L. done.
Qed.

Lemma collected_stored (texts : list str) (ip : str) :
  ip ∈ collected texts → stored ip.
Proof.
  unfold collected. rewrite elem_of_list_to_set, list_elem_of_filter.
  intros [Hne Hin]. apply list_elem_of_fmap in Hin as (text & -> & _).
  split; [done|apply strip_idemp].
Qed.

Lemma collected_keep (ips : gset str) (text : str) (texts : list str) :
  collected texts
    ∪ (if negb (not_ (strip text)) then {[ strip text ]} ∪ ips else ips)
  = collected (text :: texts) ∪ ips.
Proof.
  rewrite collected_cons. destruct (negb (not_ (strip text))); [|done].
  rewrite (assoc_L (∪)). f_equal. apply (comm_L (∪)).
Qed.

Lemma foldl_keep (ips : gset str) (texts : list str) :
  foldl (λ ips text, let ip := strip text in
                     if negb (not_ ip) then {[ ip ]} ∪ ips else ips) ips texts
  = collected texts ∪ ips.
Proof.
  revert ips. induction texts as [|text texts IH]; intros ips; cbn [foldl].
  - by rewrite collected_nil, (left_id_L ∅ (∪)).
  - rewrite IH. cbv zeta. apply collected_keep.
Qed.

Lemma foldl_add_row (ips : gset str) (rows : list (list str)) :
  foldl add_row ips rows = collected (concat rows) ∪ ips.
Proof.
  revert ips. induction rows as [|row rows IH]; intros ips; cbn [foldl concat].
  - by rewrite collected_nil, (left_id_L ∅ (∪)).
  - rewrite IH. unfold add_row. rewrite foldl_keep, collected_app.
    rewrite (assoc_L (∪)). f_equal. apply (comm_L (∪)).
Qed.

(** The prompts of [leer_ips_manual] before the word [fin]. *)
Lemma manual_loop_prefix (lines : list str) :
  ∀ (fuel : nat) (ips : gset str) (w : world) (tail : list event),
  keyboard w = (Line <$> lines) ++ tail →
  Forall (λ line, lower (strip line) ≠ u "fin") lines →
  manual_loop lower (length lines + fuel) ips w =
    manual_loop lower fuel (collected lines ∪ ips)
      (World tail (screen w ++ replicate (length lines) (u "IP> "))
         (disk w) (clock w) (ticks w)).
Proof.
  induction lines as [|line lines IH]; intros fuel ips [k s d c t] tail Hk Hfin;
    cbn [keyboard screen disk clock ticks] in *.
  - cbn [length replicate Nat.add fmap list_fmap app] in *. subst k.
    by rewrite app_nil_r, collected_nil, (left_id_L ∅ (∪)).
  - apply Forall_cons in Hfin as [Hline Hfin]. subst k.
    cbn [length Nat.add manual_loop]. rewrite bind_run.
    change (input (u "IP> ") _) with
      (Done line, World ((Line <$> lines) ++ tail) (s ++ [u "IP> "]) d c t).
    cbv beta iota zeta. rewrite bool_decide_eq_false_2 by done.
    rewrite (IH fuel _ (World ((Line <$> lines) ++ tail) (s ++ [u "IP> "]) d c t)
               tail eq_refl Hfin).
    cbn [keyboard screen disk clock ticks].
    rewrite collected_keep, <-app_assoc. done.
Qed.

(** The loop started with enough steps for the keys that are left ends
    with a result or an exception of Python, having read forwards. *)
Lemma manual_loop_triple (fuel : nat) :
  ∀ (ips : gset str) (w : world),
  (length (keyboard w) < fuel)%nat →
  (∀ ip, ip ∈ ips → stored ip) →
  match manual_loop lower fuel ips w with
  | (Done ips', w') => (∀ ip, ip ∈ ips' → stored ip) ∧ consumes w w'
  | (Failed e, w') => e ≠ OutOfFuel ∧ advances w w'
  end.
Proof.
  induction fuel as [|fuel IH]; intros ips w Hfuel Hips; [lia|].
  cbn [manual_loop]. rewrite bind_run.
  pose proof (triple_input (u "IP> ") w) as Hin.
  destruct (input (u "IP> ") w) as [[line|e] w1]; [|done].
  destruct Hin as [_ Hstrict]. cbv zeta.
  destruct (bool_decide (lower (strip line) = u "fin")).
  - done.
  - specialize (IH (if negb (not_ (strip line)) then {[ strip line ]} ∪ ips
                    else ips) w1).
    destruct Hstrict as [Hlen Hd].
    destruct (manual_loop lower fuel _ w1) as [[ips'|e] w2];
      (destruct IH as [HQ HR];
       [lia
       |destruct (strip line) as [|ch rest] eqn:Hs; cbn [not_ negb]; [done|];
         intros ip [->%elem_of_singleton| ?]%elem_of_union; [|by auto];
         split; [done|]; rewrite <-Hs; apply strip_idemp
       |]).
    + split; [done|]. eapply consumes_advances_trans; [by split|by apply consumes_advances].
    + split; [done|]. eapply advances_trans; [apply consumes_advances; by split|done].
Qed.


Lemma say_run (line : str) (w : world) : say line w = (Done tt, show [line] w).
Proof. done. Qed.

Lemma leer_ips_manual_run (w : world) (lines : list str) (tail : list event) :
  keyboard w = (Line <$> lines) ++ tail →
  Forall (λ line, lower (strip line) ≠ u "fin") lines →
  leer_ips_manual lower w =
    manual_loop lower (S (length tail)) (collected lines)
      (World tail
         (screen w
          ++ [nl ++ u "📝 Ingrese las direcciones IP (una por línea)";
              u "   Escriba 'fin' para terminar:" ++ nl]
          ++ replicate (length lines) (u "IP> "))
         (disk w) (clock w) (ticks w)).
Proof.
  intros Hk Hfin. unfold leer_ips_manual. cbv zeta.
  rewrite bind_run, say_run. cbv beta iota. rewrite bind_run, say_run.
  cbv beta iota. rewrite Hk, length_app, length_fmap.
  replace (S (length lines + length tail))
    with (length lines + S (length tail))%nat by lia.
  rewrite (manual_loop_prefix lines _ _ _ tail) by done.
  cbn [show keyboard screen disk clock ticks].
  by rewrite (right_id_L ∅ (∪)), <-!app_assoc.
Qed.

Lemma triple_leer_ips_manual :
  triple consumes (leer_ips_manual lower) (λ ips, ∀ ip, ip ∈ ips → stored ip).
Proof.
  intros w. unfold leer_ips_manual. cbv zeta.
  rewrite bind_run, say_run. cbv beta iota. rewrite bind_run, say_run.
  cbv beta iota.
  pose proof (manual_loop_triple (S (length (keyboard w))) ∅
                (show [u "   Escriba 'fin' para terminar:" ++ nl]
                   (show [nl ++ u "📝 Ingrese las direcciones IP (una por línea)"]
                      w))) as H.
  destruct (manual_loop lower _ _ _) as [[ips|e] w'].
  - apply H; [cbn; lia|]. intros ip Hip. by apply not_elem_of_empty in Hip.
  - apply H; [cbn; lia|]. intros ip Hip. by apply not_elem_of_empty in Hip.
Qed.

Lemma lista_ips_stored : Forall stored lista_ips.
Proof. repeat constructor; vm_compute; congruence. Qed.

Lemma triple_leer_ips_lista :
  triple advances leer_ips_lista (λ ips, ∀ ip, ip ∈ ips → stored ip).
Proof.
  unfold leer_ips_lista. eapply triple_seq; [apply triple_say|].
  intros _ _. apply triple_ret. intros ip Hip%elem_of_list_to_set.
  by eapply Forall_forall in Hip; [|apply lista_ips_stored].
Qed.

Lemma leer_ips_csv_run (w : world) (line : str) (rest : list event) :
  keyboard w = Line line :: rest →
  ∃ scr, leer_ips_csv message w =
    (Done (match disk w !! strip line with
           | Some (File rows _) => collected (concat rows)
           | _ => ∅
           end),
     World rest scr (disk w) (clock w) (ticks w)).
Proof.
  destruct w as [k s d c t]. cbn [keyboard disk clock ticks]. intros ->.
  unfold leer_ips_csv. cbv zeta. rewrite bind_run.
  change (input ?p _) with
    (Done line, World rest (s ++ [p]) d c t).
  cbv beta iota. rewrite bind_run. unfold os_path_exists at 1.
  cbn [disk]. cbv beta iota.
  destruct (d !! strip line) as [n|] eqn:Hd.
  - rewrite bool_decide_eq_true_2 by done. cbn [negb].
    rewrite bind_run. unfold read_rows, open_reader. cbn [disk].
    rewrite Hd. destruct n as [|rows fault|]; cbv beta iota.
    + cbn [is_Exception]. rewrite bind_run, say_run. by eexists.
    + rewrite foldl_add_row, (right_id_L ∅ (∪)).
      destruct fault as [info|]; cbn [fmap option_fmap option_map is_Exception];
        rewrite bind_run, say_run; by eexists.
    + cbn [is_Exception]. rewrite bind_run, say_run. by eexists.
  - rewrite bool_decide_eq_false_2 by (by intros [? ?]). cbn [negb].
    rewrite bind_run, say_run. by eexists.
Qed.

Lemma triple_leer_ips_csv :
  triple consumes (leer_ips_csv message) (λ ips, ∀ ip, ip ∈ ips → stored ip).
Proof.
  intros w. pose proof (triple_input (nl ++ u "📁 Ingrese la ruta del archivo CSV: ") w) as Hin.
  destruct (keyboard w) as [|[line|] rest] eqn:Hk.
  - destruct w as [k s d c t]. cbn [keyboard] in Hk. subst k.
    unfold leer_ips_csv. cbv zeta. rewrite bind_run.
    change (input ?p _) with (@Failed str EOFError, show [p] (World [] s d c t)).
    cbv beta iota. split; [done|apply advances_show].
  - destruct (leer_ips_csv_run w line rest Hk) as [scr ->].
    split.
    + intros ip Hip. destruct (disk w !! strip line) as [[|rows fault|]|];
        try by apply not_elem_of_empty in Hip.
      by eapply collected_stored.
    + split; [cbn; rewrite Hk; cbn; lia|apply touched_refl].
  - destruct w as [k s d c t]. cbn [keyboard] in Hk. subst k.
    unfold leer_ips_csv. cbv zeta. rewrite bind_run.
    change (input ?p _) with
      (@Failed str KeyboardInterrupt, World rest (s ++ [p]) d c t).
    cbv beta iota. split; [done|]. split; [cbn; lia|apply touched_refl].
Qed.

End collectors.

Section exporter.

Variable lower : str → str.
Variable message : error → str.

Lemma export_path_join (now : datetime) :
  os_path_join (u "output") (u "ips_publicas_" ++ strftime now ++ u ".csv")
  = export_path now.
Proof. done. Qed.

Lemma touched_export (d : gmap str node) (now : datetime) (l : list str) :
  exportable l →
  touched d (<[export_path now := File (export_rows l) None]> d).
Proof.
  intros Hl p. destruct (decide (p = export_path now)) as [->|Hp].
  - right; right. exists now, (File (export_rows l) None).
    rewrite lookup_insert_eq. split; [done|]. split; [done|]. by exists l.
  - left. by rewrite lookup_insert_ne.
Qed.

Lemma touched_makedirs (d : gmap str node) :
  d !! u "output" = None → touched d (<[u "output" := Dir]> d).
Proof.
  intros Hd p. destruct (decide (p = u "output")) as [->|Hp].
  - right; left. by rewrite lookup_insert_eq.
  - left. by rewrite lookup_insert_ne.
Qed.

Lemma triple_write_rows (now : datetime) (l : list str) :
  exportable l →
  triple advances (write_rows (u "output")
               (u "ips_publicas_" ++ strftime now ++ u ".csv") (export_rows l))
    (λ _, True).
Proof.
  intros Hl w. unfold write_rows. cbv zeta. rewrite export_path_join.
  destruct (disk w !! u "output") as [[| |]|]; try (split; [done|apply advances_refl]).
  destruct (disk w !! export_path now) as [[| |]|];
    try (split; [done|apply advances_refl]);
    (split; [done|]; split; [reflexivity|by apply touched_export]).
Qed.

Lemma bind_assoc_run {A B C} (m : prog A) (f : A → prog B) (g : B → prog C)
    (w : world) :
  ((m ≫= f) ≫= g) w = (m ≫= (λ a, f a ≫= g)) w.
Proof.
  rewrite !bind_run. destruct (m w) as [[a|e] w']; [|done].
  by rewrite bind_run.
Qed.

Lemma triple_output_dir :
  triple advances (found ← os_path_exists (u "output");
             if negb found then os_makedirs (u "output") else mret tt)
    (λ _, True).
Proof.
  intros w. rewrite bind_run. unfold os_path_exists at 1. cbv beta iota.
  case_bool_decide as Hd; cbn [negb].
  - split; [done|apply advances_refl].
  - split; [done|]. split; [reflexivity|]. apply touched_makedirs.
    destruct (disk w !! u "output") eqn:E; [|done]. by destruct Hd.
Qed.

Lemma triple_datetime_now : triple advances datetime_now (λ _, True).
Proof. intros w. split; [done|]. split; [reflexivity|apply touched_refl]. Qed.

Lemma triple_guardar_resultado_csv (ips_publicas : list str) :
  exportable ips_publicas →
  triple advances (guardar_resultado_csv ips_publicas) (λ _, True).
Proof.
  intros Hl w. unfold guardar_resultado_csv. cbv zeta.
  rewrite <-bind_assoc_run. revert w.
  apply (triple_seq _ _ (λ _, True) (λ _, True)); [apply triple_output_dir|].
  intros _ _. eapply triple_seq; [apply triple_datetime_now|].
  intros now _. eapply triple_seq; [by apply triple_write_rows|].
  intros _ _. by apply triple_ret.
Qed.

End exporter.

Section menu.

Variable lower : str → str.
Variable message : error → str.

Lemma triple_mostrar_menu : triple advances mostrar_menu (λ _, True).
Proof.
  unfold mostrar_menu.
  repeat (eapply triple_seq; [apply triple_say|intros _ _]).
  apply triple_say.
Qed.

Lemma triple_say_each (ips_publicas : list str) :
  triple advances (say_each ips_publicas) (λ _, True).
Proof.
  induction ips_publicas as [|ip rest IH]; cbn [say_each].
  - by apply triple_ret.
  - eapply triple_seq; [apply triple_say|]. by intros _ _.
Qed.

Lemma filtrar_exportable (ips : gset str) (ips_publicas : list str) :
  (∀ ip, ip ∈ ips → stored ip) →
  outcome (filtrar_ips_publicas (elements ips)) = Ret ips_publicas →
  not_ ips_publicas = false →
  exportable ips_publicas.
Proof.
  intros Hips Hout Hne. rewrite filtrar_ips_publicas_outcome in Hout.
  injection Hout as <-. split; [|split; [|split]].
  - intros E. by rewrite E in Hne.
  - apply sorted_StronglySorted.
  - apply sorted_NoDup, NoDup_filter, NoDup_elements.
  - apply Forall_forall. intros ip Hip. rewrite elem_of_sorted in Hip.
    apply list_elem_of_filter in Hip as [Hpub Hin%elem_of_elements]. auto.
Qed.

Lemma triple_main_body :
  triple consumes (main_body lower message) (λ _, True).
Proof.
  unfold main_body.
  eapply triple_before; [apply triple_mostrar_menu|]. intros _ _.
  eapply triple_after; [apply triple_input|]. intros line _. cbv zeta.
  case_bool_decide.
  { eapply triple_seq; [apply triple_say|]. intros _ _. by apply triple_ret. }
  eapply (triple_seq _ _
            (λ chosen, ∀ ips, chosen = Some ips → ∀ ip, ip ∈ ips → stored ip)).
  { repeat case_bool_decide.
    - eapply triple_seq;
        [eapply triple_relax; [apply triple_leer_ips_manual|done]|].
      intros ips Hips. apply triple_ret. by intros ? [= <-].
    - eapply triple_seq; [apply triple_leer_ips_lista|].
      intros ips Hips. apply triple_ret. by intros ? [= <-].
    - eapply triple_seq;
        [eapply triple_relax; [apply triple_leer_ips_csv|done]|].
      intros ips Hips. apply triple_ret. by intros ? [= <-].
    - eapply triple_seq; [apply triple_say|]. intros _ _.
      by apply triple_ret. }
  intros [ips|] Hchosen; [|by apply triple_ret].
  specialize (Hchosen ips eq_refl).
  case_bool_decide.
  { eapply triple_seq; [apply triple_say|]. intros _ _. by apply triple_ret. }
  eapply (triple_seq _ _
            (λ l, outcome (filtrar_ips_publicas (elements ips)) = Ret l));
    [by apply triple_run_io|].
  intros ips_publicas Hout.
  cbv beta in Hout.
  do 5 (eapply triple_seq; [apply triple_say|intros _ _]).
  eapply (triple_seq _ _ (λ _, True)).
  { destruct (not_ ips_publicas) eqn:Hne; cbn [negb].
    - apply triple_say.
    - eapply triple_seq.
      + apply triple_guardar_resultado_csv. by eapply filtrar_exportable.
      + intros p _. do 2 (eapply triple_seq; [apply triple_say|intros _ _]).
        apply triple_say_each. }
  intros _ _. eapply triple_seq.
  - eapply triple_relax; [apply triple_input|done].
  - intros _ _. by apply triple_ret.
Qed.

Lemma main_loop_triple (fuel : nat) :
  ∀ w, (length (keyboard w) < fuel)%nat →
  match main_loop lower message fuel w with
  | (Done _, w') => advances w w'
  | (Failed e, w') => e ≠ OutOfFuel ∧ advances w w'
  end.
Proof.
  induction fuel as [|fuel IH]; intros w Hfuel; [lia|].
  cbn [main_loop]. rewrite bind_run.
  pose proof (triple_main_body w) as Hbody.
  destruct (main_body lower message w) as [[next|e] w1]; [|done].
  destruct Hbody as [_ Hstrict]. destruct next.
  - specialize (IH w1). destruct Hstrict as [Hlen Hd].
    destruct (main_loop lower message fuel w1) as [[?|e] w2].
    + eapply advances_trans; [apply consumes_advances; by split|apply IH; lia].
    + destruct IH as [He Hok]; [lia|]. split; [done|].
      eapply advances_trans; [apply consumes_advances; by split|done].
  - by apply consumes_advances.
Qed.

Lemma main_triple (w : world) :
  match main lower message w with
  | (Done _, w') => advances w w'
  | (Failed e, w') => e ≠ OutOfFuel ∧ advances w w'
  end.
Proof.
  unfold main. rewrite bind_run, say_run. cbv beta iota.
  pose proof (main_loop_triple (S (length (keyboard w)))
                (show [nl ++ u "🚀 Iniciando programa de filtrado de IPs..."] w)) as H.
  destruct (main_loop _ _ _ _) as [[?|e] w']; apply H; cbn; lia.
Qed.

End menu.

Section program_facts.

(** X10. [leer_ips_manual] reads lines up to the first one that, stripped
    and lower-cased, is [fin]: it returns the set of the lines before it,
    each stripped and the empty ones dropped, leaves what was typed after
    it unread, shows one prompt for each line it read, and touches neither
    the disk nor the clock. *)
Theorem leer_ips_manual_collects (lower : str → str) (w : world)
    (lines : list str) (stop : str) (rest : list event) :
  keyboard w = (Line <$> lines) ++ Line stop :: rest →
  Forall (λ line, lower (strip line) ≠ u "fin") lines →
  lower (strip stop) = u "fin" →
  leer_ips_manual lower w =
    (Done (collected lines),
     World rest
       (screen w
        ++ [nl ++ u "📝 Ingrese las direcciones IP (una por línea)";
            u "   Escriba 'fin' para terminar:" ++ nl]
        ++ replicate (S (length lines)) (u "IP> "))
       (disk w) (clock w) (ticks w)).
Proof.
  intros Hk Hfin Hstop. rewrite (leer_ips_manual_run lower w lines _ Hk Hfin).
  cbn [manual_loop]. rewrite bind_run.
  change (input ?p (World (Line stop :: rest) ?s ?d ?c ?t)) with
    (Done stop, World rest (s ++ [p]) d c t).
  cbv beta iota zeta. rewrite bool_decide_eq_true_2 by done.
  unfold mret, prog_ret. rewrite replicate_S_end. by rewrite <-!app_assoc.
Qed.

Lemma leer_ips_manual_collects_witness :
  leer_ips_manual ascii_lower
    (World [Line (py " 8.8.8.8 "); Line (py "  "); Line (py "final");
            Line (py " FIN"); Line (py "1.1.1.1")]
       [] ∅ (λ _, Datetime 2026 11 3 9 5 0 42) 0)
  = (Done (collected [py " 8.8.8.8 "; py "  "; py "final"]),
     World [Line (py "1.1.1.1")]
       ([] ++ [nl ++ u "📝 Ingrese las direcciones IP (una por línea)";
               u "   Escriba 'fin' para terminar:" ++ nl]
        ++ replicate 4 (u "IP> "))
       ∅ (λ _, Datetime 2026 11 3 9 5 0 42) 0)
  ∧ elements (collected [py " 8.8.8.8 "; py "  "; py "final"])
    ≡ₚ [py "8.8.8.8"; py "final"].
Proof.
  split.
  - apply (leer_ips_manual_collects ascii_lower
             (World [Line (py " 8.8.8.8 "); Line (py "  "); Line (py "final");
                     Line (py " FIN"); Line (py "1.1.1.1")]
                [] ∅ (λ _, Datetime 2026 11 3 9 5 0 42) 0)
             [py " 8.8.8.8 "; py "  "; py "final"] (py " FIN")
             [Line (py "1.1.1.1")]).
    + reflexivity.
    + repeat constructor; vm_compute; discriminate.
    + vm_compute. reflexivity.
  - vm_compute. apply perm_swap || reflexivity.
Defined.

(** X11. When the input ends, or Ctrl-C is pressed, before a line that is
    [fin], [leer_ips_manual] returns nothing: it raises [EOFError] or
    [KeyboardInterrupt], and the lines typed so far are lost with it. *)
Theorem leer_ips_manual_interrupted (lower : str → str) (w : world)
    (lines : list str) (tail : list event) :
  keyboard w = (Line <$> lines) ++ tail →
  Forall (λ line, lower (strip line) ≠ u "fin") lines →
  (tail = [] ∨ ∃ rest, tail = CtrlC :: rest) →
  fst (leer_ips_manual lower w)
  = Failed (match tail with [] => EOFError | _ => KeyboardInterrupt end).
Proof.
  intros Hk Hfin Htail. rewrite (leer_ips_manual_run lower w lines _ Hk Hfin).
  cbn [manual_loop]. rewrite bind_run.
  destruct Htail as [->|[rest ->]]; reflexivity.
Qed.

Lemma leer_ips_manual_interrupted_witness :
  fst (leer_ips_manual ascii_lower
         (World [Line (py "8.8.8.8"); Line (py "1.1.1.1")]
            [] ∅ (λ _, Datetime 2026 11 3 9 5 0 42) 0))
  = Failed EOFError.
Proof.
  apply (leer_ips_manual_interrupted ascii_lower
           (World [Line (py "8.8.8.8"); Line (py "1.1.1.1")]
              [] ∅ (λ _, Datetime 2026 11 3 9 5 0 42) 0)
           [py "8.8.8.8"; py "1.1.1.1"] []).
  - reflexivity.
  - repeat constructor; vm_compute; discriminate.
  - by left.
Defined.

(** X12. Whatever the three collectors return, each string of the set is
    stored stripped and is not empty: no blank entry and no surrounding
    white space reaches the filter. *)
Theorem collectors_store_stripped (lower : str → str) (message : error → str)
    (w w' : world) (ips : gset str) :
  leer_ips_manual lower w = (Done ips, w')
  ∨ leer_ips_lista w = (Done ips, w')
  ∨ leer_ips_csv message w = (Done ips, w') →
  ∀ ip, ip ∈ ips → ip ≠ [] ∧ strip ip = ip.
Proof.
  intros [H|[H|H]].
  - pose proof (triple_leer_ips_manual lower w) as T. rewrite H in T. apply T.
  - pose proof (triple_leer_ips_lista w) as T. rewrite H in T. apply T.
  - pose proof (triple_leer_ips_csv message w) as T. rewrite H in T. apply T.
Qed.

Lemma collectors_store_stripped_witness :
  leer_ips_manual ascii_lower
    (World [Line (py " 8.8.8.8 "); Line (py "  "); Line (py "fin")] [] ∅
       (λ _, Datetime 2026 11 3 9 5 0 42) 0)
  = (Done {[ py "8.8.8.8" ]},
     snd (leer_ips_manual ascii_lower
            (World [Line (py " 8.8.8.8 "); Line (py "  "); Line (py "fin")] [] ∅
               (λ _, Datetime 2026 11 3 9 5 0 42) 0)))
  ∧ py "8.8.8.8" ≠ [] ∧ strip (py "8.8.8.8") = py "8.8.8.8".
Proof.
  assert (leer_ips_manual ascii_lower
            (World [Line (py " 8.8.8.8 "); Line (py "  "); Line (py "fin")] [] ∅
               (λ _, Datetime 2026 11 3 9 5 0 42) 0)
          = (Done {[ py "8.8.8.8" ]},
             snd (leer_ips_manual ascii_lower
                    (World [Line (py " 8.8.8.8 "); Line (py "  "); Line (py "fin")]
                       [] ∅ (λ _, Datetime 2026 11 3 9 5 0 42) 0)))) as H
    by (vm_compute; reflexivity).
  split; [exact H|].
  apply (collectors_store_stripped ascii_lower (λ _, []) _ _ {[ py "8.8.8.8" ]}
           (or_introl H) (py "8.8.8.8")).
  by apply elem_of_singleton.
Defined.





Lemma export_path_not_output (now : datetime) : export_path now ≠ u "output".
Proof. unfold export_path. vm_compute. discriminate. Qed.

Lemma guardar_resultado_csv_run (ips_publicas : list str) (w : world) :
  output_ready (disk w) →
  writable (disk w) (export_path (clock w (ticks w))) →
  guardar_resultado_csv ips_publicas w =
    (Done (export_path (clock w (ticks w))),
     World (keyboard w) (screen w)
       (<[export_path (clock w (ticks w)) := File (export_rows ips_publicas) None]>
          (<[u "output" := Dir]> (disk w)))
       (clock w) (S (ticks w))).
Proof.
  destruct w as [k s d c t]. cbn [keyboard screen disk clock ticks].
  intros Hout [Hdir Hlocked].
  assert (<[u "output" := Dir]> d !! u "output" = Some Dir) as Hmade
    by apply lookup_insert_eq.
  assert (<[u "output" := Dir]> d !! export_path (c t) = d !! export_path (c t))
    as Hsame by (apply lookup_insert_ne; intros E; by apply (export_path_not_output (c t))).
  unfold guardar_resultado_csv. cbv zeta.
  rewrite bind_run. unfold os_path_exists at 1. cbn [disk]. cbv beta iota.
  rewrite bind_run.
  destruct Hout as [Hout|Hout].
  - rewrite bool_decide_eq_false_2 by (rewrite Hout; by intros [? ?]).
    cbn [negb]. unfold os_makedirs at 1.
    cbn [keyboard screen disk clock ticks]. cbv beta iota.
    rewrite bind_run. unfold datetime_now at 1.
    cbn [keyboard screen disk clock ticks]. cbv beta iota.
    rewrite bind_run. unfold write_rows. cbv zeta. rewrite export_path_join.
    cbn [keyboard screen disk clock ticks]. rewrite Hmade, Hsame.
    destruct (d !! export_path (c t)) as [[| |]|]; done.
  - rewrite bool_decide_eq_true_2 by (by rewrite Hout).
    cbn [negb]. unfold mret at 1, prog_ret at 1. cbv beta iota.
    rewrite bind_run. unfold datetime_now at 1.
    cbn [keyboard screen disk clock ticks]. cbv beta iota.
    rewrite bind_run. unfold write_rows. cbv zeta. rewrite export_path_join.
    cbn [keyboard screen disk clock ticks]. rewrite Hout.
    rewrite (insert_id d (u "output") Dir Hout).
    destruct (d !! export_path (c t)) as [[| |]|]; done.
Qed.

(** X16. The name of an export tells its time to the second only: a
    second export made within the same second is written over the first,
    and the disk then holds the second list alone. *)
Theorem exports_within_a_second (w : world) (earlier later : list str) :
  output_ready (disk w) →
  writable (disk w) (export_path (clock w (ticks w))) →
  strftime (clock w (S (ticks w))) = strftime (clock w (ticks w)) →
  let after := (_ ← guardar_resultado_csv earlier;
                guardar_resultado_csv later) w in
  fst after = Done (export_path (clock w (ticks w)))
  ∧ disk (snd after) !! export_path (clock w (ticks w))
    = Some (File (export_rows later) None)
  ∧ ∀ p, p ≠ export_path (clock w (ticks w)) → p ≠ u "output" →
         disk (snd after) !! p = disk w !! p.
Proof.
  intros Hout Hw Hsame after. subst after.
  rewrite bind_run, (guardar_resultado_csv_run earlier w Hout Hw).
  assert (export_path (clock w (S (ticks w))) = export_path (clock w (ticks w)))
    as Hpath by (unfold export_path; by rewrite Hsame).
  rewrite guardar_resultado_csv_run; cbn [keyboard screen disk clock ticks fst snd].
  - rewrite Hpath. split; [done|]. split; [apply lookup_insert_eq|].
    intros p Hp Hp'. by rewrite !lookup_insert_ne.
  - right. rewrite lookup_insert_ne by apply export_path_not_output.
    apply lookup_insert_eq.
  - unfold writable. rewrite Hpath, lookup_insert_eq. by split.
Qed.

Lemma exports_within_a_second_witness :
  fst ((_ ← guardar_resultado_csv [py "8.8.8.8"];
        guardar_resultado_csv [py "1.1.1.1"])
         (World [] [] ∅
            (λ k, Datetime 2026 11 3 9 5 0 (42 + k)) 0))
  = Done (u "output/ips_publicas_20261103_090500.csv")
  ∧ disk (snd ((_ ← guardar_resultado_csv [py "8.8.8.8"];
                guardar_resultado_csv [py "1.1.1.1"])
                 (World [] [] ∅
                    (λ k, Datetime 2026 11 3 9 5 0 (42 + k)) 0)))
      !! (u "output/ips_publicas_20261103_090500.csv")
    = Some (File [[u "IP_Publica"]; [py "1.1.1.1"]] None).
Proof.
  pose proof (exports_within_a_second
                (World [] [] ∅ (λ k, Datetime 2026 11 3 9 5 0 (42 + k)) 0)
                [py "8.8.8.8"] [py "1.1.1.1"]) as H.
  destruct H as (H1 & H2 & _).
  - by left.
  - by split.
  - reflexivity.
  - split; [exact H1|exact H2].
Defined.

End program_facts.

(** ** One turn of the menu *)

Section turn.

Lemma run_bind {A B} (m : prog A) (f : A → prog B) (w w' : world) (a : A)
    (r : res B * world) :
  m w = (Done a, w') → f a w' = r → (m ≫= f) w = r.
Proof. intros Hm Hf. by rewrite bind_run, Hm. Qed.

Lemma say_step (line : str) (w : world) :
  say line w
  = (Done tt, World (keyboard w) (screen w ++ [line]) (disk w) (clock w) (ticks w)).
Proof. done. Qed.

Lemma input_step (prompt : str) (w : world) (text : str) (rest : list event) :
  keyboard w = Line text :: rest →
  input prompt w
  = (Done text, World rest (screen w ++ [prompt]) (disk w) (clock w) (ticks w)).
Proof. intros Hk. unfold input. cbn [show keyboard]. by rewrite Hk. Qed.

Lemma mostrar_menu_step (w : world) :
  mostrar_menu w
  = (Done tt, World (keyboard w) (screen (snd (mostrar_menu w))) (disk w)
                (clock w) (ticks w)).
Proof. done. Qed.

Lemma say_each_step (ips_publicas : list str) (w : world) :
  say_each ips_publicas w
  = (Done tt, World (keyboard w) (screen (snd (say_each ips_publicas w)))
                (disk w) (clock w) (ticks w)).
Proof.
  revert w. induction ips_publicas as [|ip rest IH]; intros w; cbn [say_each].
  - by destruct w.
  - rewrite bind_run, say_step. cbv beta iota. rewrite IH at 1. done.
Qed.

Lemma run_io_step {A} (m : io A) (a : A) (w : world) :
  outcome m = Ret a →
  run_io m w
  = (Done a, World (keyboard w) (screen w ++ stdout m) (disk w) (clock w) (ticks w)).
Proof. intros Hm. unfold run_io. by rewrite Hm. Qed.

Lemma filter_public_empty : filter_public ∅ = Ret [].
Proof. rewrite filter_public_eq, elements_empty. done. Qed.

Lemma collected_not_empty (texts ips_publicas : list str) :
  filter_public (collected texts) = Ret ips_publicas →
  ips_publicas ≠ [] → collected texts ≠ ∅.
Proof.
  intros Hpub Hne E. rewrite E, filter_public_empty in Hpub.
  by injection Hpub as <-.
Qed.

Lemma leer_ips_manual_stop (lower : str → str) (w : world) (lines : list str)
    (stop : str) (rest : list event) :
  keyboard w = (Line <$> lines) ++ Line stop :: rest →
  Forall (λ line, lower (strip line) ≠ u "fin") lines →
  lower (strip stop) = u "fin" →
  leer_ips_manual lower w
  = (Done (collected lines),
     World rest (screen (snd (leer_ips_manual lower w))) (disk w) (clock w)
       (ticks w)).
Proof.
  intros Hk Hfin Hstop. rewrite (leer_ips_manual_run lower w lines _ Hk Hfin).
  cbn [manual_loop]. rewrite bind_run.
  erewrite input_step by reflexivity. cbv beta iota zeta.
  by rewrite bool_decide_eq_true_2.
Qed.

(** One statement of a block, run. *)
Ltac step lem := eapply run_bind; [lem|cbv beta; cbn [keyboard disk clock ticks]].



End turn.
